(** * Go-LRU: a size-bounded LRU cache (lru/lru.go)

    A shallow embedding of the package [lru] and the properties its
    specification states about it.

    The cache holds pointers to [LRUItem] objects that the caller (or the
    producer) allocates, and it writes two private back-references into each
    object it stores.  The embedding therefore keeps the objects in a store
    indexed by location: two keys can be given the same object, exactly as in
    Go.  [int] is Go's signed integer of 64-bit platforms; its arithmetic
    wraps around.

    What the embedding covers:
    - the calls of the package, one after the other: each runs under the
      lock of the cache, so the lock itself is left out;
    - [*LRUItem] arguments that are not nil (a nil one makes [putItem] panic
      at its first statement), and keys that Go can compare;
    - the two callbacks as functions on the state of an environment: they do
      not call back into the cache (the lock is not reentrant) and, like the
      caller, they do not write to the Value and Size of an object.

    The loop of [evictAsNeeded] need not end when an object is stored twice,
    so the model gives it fuel; a result is always shown to exist for enough
    fuel, never assumed. *)

From stdpp Require Import gmap strings list fin_maps.
From Stdlib Require Import ZArith Lia.

Local Open Scope Z_scope.

(** ** Go's [int] *)

Module GoInt.

Definition min_int : Z := - 2 ^ 63.
Definition max_int : Z := 2 ^ 63 - 1.

(** Two's-complement wrap-around of a mathematical integer. *)
Definition wrap (z : Z) : Z := (z + 2 ^ 63) mod 2 ^ 64 - 2 ^ 63.

Definition add (a b : Z) : Z := wrap (a + b).
Definition sub (a b : Z) : Z := wrap (a - b).

Definition in_range (z : Z) : Prop := min_int <= z <= max_int.

End GoInt.

(** ** Outcomes of a call

    A call returns, panics (a nil dereference), or is still inside the loop of
    [evictAsNeeded] when the fuel given to the model is used up. *)

Inductive result (A : Type) : Type :=
  | Done (a : A)
  | Panic
  | OutOfFuel.
Arguments Done {A} a.
Arguments Panic {A}.
Arguments OutOfFuel {A}.

#[global] Instance result_ret : MRet result := fun A a => Done a.
#[global] Instance result_bind : MBind result := fun A B f r =>
  match r with
  | Done a => f a
  | Panic => Panic
  | OutOfFuel => OutOfFuel
  end.

(** A nil pointer field that the code dereferences. *)
Definition deref {A : Type} (o : option A) : result A :=
  match o with
  | Some a => Done a
  | None => Panic
  end.

(** Locations of [LRUItem] objects and identities of [list.Element] objects. *)
Definition loc : Type := nat.
Definition elem : Type := nat.

(** The text of the two errors the package creates. *)
Definition errCacheSize : string := "Cache size must be greater than 0".
Definition errKeyExists : string := "Key already exists".

Section LRU.

(** [K]: the dynamic values used as keys (comparable, as a Go map needs);
    [V]: the payloads; [W]: the state of the environment on which the two
    callbacks act. *)
Context {K : Type} `{Countable K} {V W : Type}.

(** [type LRUItem struct].  [elementKey] points to the variable that holds
    the key of the call that stored the item; that variable is never written
    again, so the field is modelled by the key itself, or nil. *)
Record LRUItem : Type := mkItem {
  Value : V;
  Size : Z;
  elementListItem : option elem;
  elementKey : option K
}.

(** [type LRUCache struct], without the lock: the model is the sequential
    behaviour of the calls, each of which runs under the lock. *)
Record LRUCache : Type := mkCache {
  maxSize : Z;
  currentSize : Z;
  (** container/list: front first; an element is its identity and its Value *)
  orderedItems : list (elem * loc);
  items : gmap K loc;
  producer : option (K -> W -> option loc * W);
  onevict : option (K -> loc -> W -> W)
}.

(** The cache together with what its methods reach: the item objects, the
    allocator of list elements, and the environment of the callbacks. *)
Record State : Type := mkState {
  cache : LRUCache;
  heap : loc -> LRUItem;
  nextElem : elem;
  world : W
}.

Definition set_cache (c : LRUCache) (s : State) : State :=
  mkState c (heap s) (nextElem s) (world s).
Definition set_world (w : W) (s : State) : State :=
  mkState (cache s) (heap s) (nextElem s) w.

Definition set_maxSize (z : Z) (c : LRUCache) : LRUCache :=
  mkCache z (currentSize c) (orderedItems c) (items c) (producer c) (onevict c).
Definition set_currentSize (z : Z) (c : LRUCache) : LRUCache :=
  mkCache (maxSize c) z (orderedItems c) (items c) (producer c) (onevict c).
Definition set_orderedItems (l : list (elem * loc)) (c : LRUCache) : LRUCache :=
  mkCache (maxSize c) (currentSize c) l (items c) (producer c) (onevict c).
Definition set_items (m : gmap K loc) (c : LRUCache) : LRUCache :=
  mkCache (maxSize c) (currentSize c) (orderedItems c) m (producer c) (onevict c).

(** The two assignments of [putItem] to the private fields of an item. *)
Definition link (e : elem) (key : K) (it : LRUItem) : LRUItem :=
  mkItem (Value it) (Size it) (Some e) (Some key).

Definition store (p : loc) (it : LRUItem) (h : loc -> LRUItem) : loc -> LRUItem :=
  fun q => if decide (q = p) then it else h q.

(** *** container/list *)

(** [l.Remove(e)]: nothing happens when [e] is not an element of [l]. *)
Definition Remove (e : elem) (l : list (elem * loc)) : list (elem * loc) :=
  filter (fun x => x.1 ≠ e) l.

(** [l.MoveToFront(e)]: nothing happens when [e] is not an element of [l]. *)
Definition MoveToFront (e : elem) (l : list (elem * loc)) : list (elem * loc) :=
  match list_find (fun x => x.1 = e) l with
  | Some (_, x) => x :: Remove e l
  | None => l
  end.

(** [l.Back()] *)
Definition Back (l : list (elem * loc)) : option (elem * loc) := last l.

(** *** The methods *)

(** [func New] *)
Definition New (maxSize : Z) (producer : option (K -> W -> option loc * W))
    (onevict : option (K -> loc -> W -> W)) : string + LRUCache :=
  if bool_decide (maxSize <= 0) then inl errCacheSize
  else inr (mkCache maxSize 0 [] ∅ producer onevict).

(** [func (cache *LRUCache) evictElement] *)
Definition evictElement (element : loc) (s : State) : result State :=
  let c := cache s in
  let it := heap s element in
  let c := set_currentSize (GoInt.sub (currentSize c) (Size it)) c in
  key ← deref (elementKey it);
  let c := set_items (delete key (items c)) c in
  e ← deref (elementListItem it);
  let c := set_orderedItems (Remove e (orderedItems c)) c in
  let s := set_cache c s in
  match onevict c with
  | Some f => Done (set_world (f key element (world s)) s)
  | None => Done s
  end.

(** [func (cache *LRUCache) evictAsNeeded]: one unit of fuel per iteration. *)
Fixpoint evictAsNeeded (fuel : nat) (s : State) : result State :=
  if bool_decide (maxSize (cache s) < currentSize (cache s)
                  ∧ (0 < length (orderedItems (cache s)))%nat)
  then
    match fuel with
    | O => OutOfFuel
    | S fuel' =>
        back ← deref (Back (orderedItems (cache s)));
        s' ← evictElement back.2 s;
        evictAsNeeded fuel' s'
    end
  else Done s.

(** [func (cache *LRUCache) putItem] *)
Definition putItem (fuel : nat) (key : K) (element : loc) (s : State) : result State :=
  let c := cache s in
  let c := set_currentSize (GoInt.add (currentSize c) (Size (heap s element))) c in
  let listElement := nextElem s in
  let c := set_orderedItems ((listElement, element) :: orderedItems c) c in
  let c := set_items (<[key := element]> (items c)) c in
  let h := store element (link listElement key (heap s element)) (heap s) in
  evictAsNeeded fuel (mkState c h (S listElement) (world s)).

(** [func (cache *LRUCache) produceItem] *)
Definition produceItem (fuel : nat) (key : K) (s : State) : result (option loc * State) :=
  match producer (cache s) with
  | None => Done (None, s)
  | Some f =>
      let '(element, w) := f key (world s) in
      let s := set_world w s in
      match element with
      | None => Done (None, s)
      | Some element =>
          s' ← putItem fuel key element s;
          Done (Some element, s')
      end
  end.

(** [func (cache *LRUCache) Get] *)
Definition Get (fuel : nat) (key : K) (s : State) : result (option loc * State) :=
  match items (cache s) !! key with
  | Some element =>
      e ← deref (elementListItem (heap s element));
      Done (Some element,
            set_cache (set_orderedItems (MoveToFront e (orderedItems (cache s))) (cache s)) s)
  | None => produceItem fuel key s
  end.

(** [func (cache *LRUCache) MakeRoom] *)
Definition MakeRoom (fuel : nat) (size : Z) (s : State) : result State :=
  let s := set_cache (set_maxSize (GoInt.sub (maxSize (cache s)) size) (cache s)) s in
  s ← evictAsNeeded fuel s;
  Done (set_cache (set_maxSize (GoInt.add (maxSize (cache s)) size) (cache s)) s).

(** [func (cache *LRUCache) Put]: the returned error, nil when [None]. *)
Definition Put (fuel : nat) (key : K) (element : loc) (s : State) : result (option string * State) :=
  match items (cache s) !! key with
  | Some _ => Done (Some errKeyExists, s)
  | None =>
      s' ← putItem fuel key element s;
      Done (None, s')
  end.

(** [func (cache *LRUCache) Replace] *)
Definition Replace (fuel : nat) (key : K) (element : loc) (s : State) : result (option string * State) :=
  s1 ← match items (cache s) !! key with
       | Some item => evictElement item s
       | None => Done s
       end;
  s2 ← putItem fuel key element s1;
  Done (None, s2).

(** [func (cache *LRUCache) Evict] *)
Definition Evict (key : K) (s : State) : result (option loc * State) :=
  match items (cache s) !! key with
  | Some item =>
      s' ← evictElement item s;
      Done (Some item, s')
  | None => Done (None, s)
  end.

(** The body of the loop of [EvictIf] at one key of the iteration.  A range
    over a Go map does not produce an entry that was deleted before the
    iteration reached it. *)
Definition evictIfStep (predicate : K -> bool) (key : K) (s : State) : result State :=
  match items (cache s) !! key with
  | Some value => if predicate key then evictElement value s else Done s
  | None => Done s
  end.

Fixpoint evictIfLoop (predicate : K -> bool) (order : list K) (s : State) : result State :=
  match order with
  | [] => Done s
  | key :: order' =>
      s' ← evictIfStep predicate key s;
      evictIfLoop predicate order' s'
  end.

(** [func (cache *LRUCache) EvictIf].  Go leaves the order of a range over a
    map unspecified: [order] is the order in which the run time visits the
    keys that are present when the loop starts. *)
Definition EvictIf (order : list K) (predicate : K -> bool) (s : State)
    : result (option loc * State) :=
  s' ← evictIfLoop predicate order s;
  Done (None, s').

(** [func (cache *LRUCache) EmptySpace] *)
Definition EmptySpace (s : State) : Z :=
  GoInt.sub (maxSize (cache s)) (currentSize (cache s)).

(** [func (cache *LRUCache) MaxSize] *)
Definition MaxSize (s : State) : Z := maxSize (cache s).

(** [func (cache *LRUCache) Has] *)
Definition Has (key : K) (s : State) : bool :=
  bool_decide (is_Some (items (cache s) !! key)).

(** ** Sequences of calls *)

Inductive op : Type :=
  | OpPut (key : K) (element : loc)
  | OpGet (key : K)
  | OpReplace (key : K) (element : loc)
  | OpEvict (key : K)
  | OpEvictIf (order : list K) (predicate : K -> bool)
  | OpMakeRoom (size : Z).

Definition after {A : Type} (r : result (A * State)) : result State :=
  x ← r; Done x.2.

Definition step (fuel : nat) (o : op) (s : State) : result State :=
  match o with
  | OpPut key element => after (Put fuel key element s)
  | OpGet key => after (Get fuel key s)
  | OpReplace key element => after (Replace fuel key element s)
  | OpEvict key => after (Evict key s)
  | OpEvictIf order predicate => after (EvictIf order predicate s)
  | OpMakeRoom size => MakeRoom fuel size s
  end.

Fixpoint run (fuel : nat) (ops : list op) (s : State) : result State :=
  match ops with
  | [] => Done s
  | o :: ops' => s' ← step fuel o s; run fuel ops' s'
  end.

(** ** Invariants *)

(** The sum of the Size fields of the items of an index. *)
Definition sumSizes (h : loc -> LRUItem) (m : gmap K loc) : Z :=
  map_fold (fun _ z acc => z + acc) 0 ((fun p => Size (h p)) <$> m).

(** The index and the recency list describe the same entries, and the
    back-references of every stored item lead to its own entry. *)
Record wf (s : State) : Prop := mkWf {
  wf_nodup : NoDup (orderedItems (cache s)).*1;
  wf_alloc : Forall (fun x => (x.1 < nextElem s)%nat) (orderedItems (cache s));
  wf_index :
    map_Forall (fun k p =>
      elementKey (heap s p) = Some k ∧
      ∃ e, elementListItem (heap s p) = Some e ∧ (e, p) ∈ orderedItems (cache s))
      (items (cache s));
  wf_list :
    Forall (fun x =>
      elementListItem (heap s x.2) = Some x.1 ∧
      ∃ k, elementKey (heap s x.2) = Some k ∧ items (cache s) !! k = Some x.2)
      (orderedItems (cache s))
}.

(** [currentSize] is the sum of the sizes of the indexed items, in Go's
    arithmetic. *)
Definition accounted (s : State) : Prop :=
  currentSize (cache s) = GoInt.wrap (sumSizes (heap s) (items (cache s))).

(** The same with the sum that does not wrap. *)
Definition exact (s : State) : Prop :=
  currentSize (cache s) = sumSizes (heap s) (items (cache s)).

(** No indexed item has a negative size. *)
Definition sizes_nonneg (s : State) : Prop :=
  map_Forall (fun _ p => 0 <= Size (heap s p)) (items (cache s)).

(** The capacity bound the specification gives as post-condition. *)
Definition bounded (s : State) : Prop :=
  currentSize (cache s) <= maxSize (cache s) ∨ orderedItems (cache s) = [].

(** The invariants of the data model of the specification: the index and the
    recency list agree, [currentSize] is the sum of the sizes, and sizes are
    not negative. *)
Record inv (s : State) : Prop := mkInv {
  inv_wf : wf s;
  inv_exact : exact s;
  inv_nonneg : sizes_nonneg s;
  inv_cur : GoInt.in_range (currentSize (cache s))
}.

(** The capacity is one that [New] accepts. *)
Definition capacity_ok (s : State) : Prop :=
  0 < maxSize (cache s) <= GoInt.max_int.

(** The environment after the eviction hook has been called for the entries
    [ev] of the recency list, the last of them first. *)
Definition notified (s : State) (ev : list (elem * loc)) : W :=
  foldr (fun x w =>
           match onevict (cache s), elementKey (heap s x.2) with
           | Some f, Some key => f key x.2 w
           | _, _ => w
           end) (world s) ev.

(** No key other than [key] holds the object [p]. *)
Definition unshared (key : K) (p : loc) (s : State) : Prop :=
  map_Forall (fun k q => q = p → k = key) (items (cache s)).

(** The object a call stores is not held by the cache under another key. *)
Definition op_ok (o : op) (s : State) : Prop :=
  match o with
  | OpPut key element =>
      match items (cache s) !! key with
      | Some _ => True
      | None => unshared key element s
      end
  | OpReplace key element => unshared key element s
  | OpGet key =>
      match items (cache s) !! key, producer (cache s) with
      | None, Some f =>
          match (f key (world s)).1 with
          | Some element => unshared key element s
          | None => True
          end
      | _, _ => True
      end
  | _ => True
  end.

(** Every call of a run stores an object that is not shared. *)
Fixpoint disciplined (fuel : nat) (ops : list op) (s : State) : Prop :=
  match ops with
  | [] => True
  | o :: ops' =>
      op_ok o s ∧
      match step fuel o s with
      | Done s' => disciplined fuel ops' s'
      | _ => True
      end
  end.

#[global] Instance unshared_dec key p s : Decision (unshared key p s).
Proof. unfold unshared. apply _. Defined.

#[global] Instance op_ok_dec o s : Decision (op_ok o s).
Proof.
  destruct o; simpl; try apply _.
  - destruct (items (cache s) !! key); apply _.
  - destruct (items (cache s) !! key); [apply _|].
    destruct (producer (cache s)) as [f|]; [|apply _].
    destruct (f key (world s)).1; apply _.
Defined.

#[global] Instance disciplined_dec fuel ops : ∀ s, Decision (disciplined fuel ops s).
Proof.
  induction ops as [|o ops IH]; intros s; simpl; [apply _|].
  destruct (step fuel o s); apply _.
Defined.

(** A fresh cache in an environment: no list element allocated yet. *)
Definition fresh (c : LRUCache) (h : loc -> LRUItem) (w : W) : State :=
  mkState c h 0%nat w.

(** The state after [evictElement] of an item whose two back-references
    are [key] and [e]. *)
Definition evicted (key : K) (e : elem) (p : loc) (s : State) : State :=
  let c := cache s in
  mkState
    (mkCache (maxSize c) (GoInt.sub (currentSize c) (Size (heap s p)))
       (Remove e (orderedItems c)) (delete key (items c)) (producer c) (onevict c))
    (heap s) (nextElem s)
    (match onevict c with Some f => f key p (world s) | None => world s end).

(** The state of [putItem] when it reaches the eviction pass. *)
Definition inserted (key : K) (p : loc) (s : State) : State :=
  let c := cache s in
  mkState
    (mkCache (maxSize c) (GoInt.add (currentSize c) (Size (heap s p)))
       ((nextElem s, p) :: orderedItems c) (<[key := p]> (items c))
       (producer c) (onevict c))
    (store p (link (nextElem s) key (heap s p)) (heap s))
    (S (nextElem s)) (world s).

(** One iteration of the loop of [evictAsNeeded]: the capacity is exceeded
    and the entry at the back of the recency list is evicted. *)
Definition evictBack (s s' : State) : Prop :=
  maxSize (cache s) < currentSize (cache s) ∧
  ∃ l key e p,
    orderedItems (cache s) = l ++ [(e, p)] ∧
    items (cache s) !! key = Some p ∧
    s' = evicted key e p s.

(** The exit condition of the loop of [evictAsNeeded]. *)
Definition settled (s : State) : Prop :=
  ¬ (maxSize (cache s) < currentSize (cache s)
     ∧ (0 < length (orderedItems (cache s)))%nat).

(** Well-formed and accounted. *)
Definition good (s : State) : Prop := wf s ∧ accounted s.

(** The invariants can be decided, so that they are checked by evaluation on
    a given state. *)
#[global] Instance linked_dec (o : option elem) (p : loc) (l : list (elem * loc)) :
  Decision (∃ e, o = Some e ∧ (e, p) ∈ l).
Proof.
  destruct o as [e|].
  - destruct (decide ((e, p) ∈ l)) as [Hin|Hin].
    + left. by exists e.
    + right. intros (e' & [= <-] & Hin'). by apply Hin.
  - right. by intros (e' & [=] & _).
Defined.

#[global] Instance indexed_dec (o : option K) (p : loc) (m : gmap K loc) :
  Decision (∃ k, o = Some k ∧ m !! k = Some p).
Proof.
  destruct o as [k|].
  - destruct (decide (m !! k = Some p)) as [Hk|Hk].
    + left. by exists k.
    + right. intros (k' & [= <-] & Hk'). by apply Hk.
  - right. by intros (k' & [=] & _).
Defined.

#[global] Instance wf_dec s : Decision (wf s).
Proof.
  destruct (decide (NoDup (orderedItems (cache s)).*1)) as [H1|H1];
    [|right; by intros []].
  destruct (decide (Forall (fun x => (x.1 < nextElem s)%nat) (orderedItems (cache s))))
    as [H2|H2]; [|right; by intros []].
  destruct (decide (map_Forall (fun k p =>
      elementKey (heap s p) = Some k ∧
      ∃ e, elementListItem (heap s p) = Some e ∧ (e, p) ∈ orderedItems (cache s))
      (items (cache s)))) as [H3|H3]; [|right; by intros []].
  destruct (decide (Forall (fun x =>
      elementListItem (heap s x.2) = Some x.1 ∧
      ∃ k, elementKey (heap s x.2) = Some k ∧ items (cache s) !! k = Some x.2)
      (orderedItems (cache s)))) as [H4|H4]; [|right; by intros []].
  left. by constructor.
Defined.

#[global] Instance inv_dec s : Decision (inv s).
Proof.
  destruct (decide (wf s)) as [H1|H1]; [|right; by intros []].
  destruct (decide (exact s)) as [H2|H2]; [|right; by intros []].
  destruct (decide (sizes_nonneg s)) as [H3|H3]; [|right; by intros []].
  destruct (decide (GoInt.in_range (currentSize (cache s)))) as [H4|H4];
    [|right; by intros []].
  left. by constructor.
Defined.

(** The environment after the eviction hook has been called for the entries
    of [keys] that the index of [s] holds, the first of them first. *)
Definition hooked (s : State) (keys : list K) : W :=
  foldl (fun w key =>
           match onevict (cache s), items (cache s) !! key with
           | Some f, Some p => f key p w
           | _, _ => w
           end) (world s) keys.

(** Every stored item has its two back-references set. *)
Definition linked (s : State) : Prop :=
  map_Forall (fun _ p =>
      is_Some (elementKey (heap s p)) ∧ is_Some (elementListItem (heap s p)))
    (items (cache s)) ∧
  Forall (fun x =>
      is_Some (elementKey (heap s x.2)) ∧ is_Some (elementListItem (heap s x.2)))
    (orderedItems (cache s)).

(** A property of what a call returns, when it has not run out of fuel: the
    call has not panicked. *)
Definition returns {A : Type} (P : A → Prop) (r : result A) : Prop :=
  match r with
  | Done a => P a
  | Panic => False
  | OutOfFuel => True
  end.

(** The sizes of the entries [ev] of the recency list, added up. *)
Definition sizesOf (h : loc -> LRUItem) (ev : list (elem * loc)) : Z :=
  foldr (fun x acc => Size (h x.2) + acc) 0 ev.

(** One iteration of the loop of [evictAsNeeded], on any state: the capacity
    is exceeded, and [evictElement] is run on the item of the element at the
    back of the recency list. *)
Definition evictStep (s s' : State) : Prop :=
  maxSize (cache s) < currentSize (cache s) ∧
  ∃ back, Back (orderedItems (cache s)) = Some back ∧
    evictElement back.2 s = Done s'.

End LRU.

(** ** The environment of the package's tests

    Keys and payloads are strings; every object has the size the test gives
    it; the eviction hook appends what it is called with to a log, as the hook
    of [TestOnEvictHandler] appends the key to a string. *)

Module Tests.

Definition Log : Type := list (string * loc).

Definition record : string → loc → Log → Log := fun key p w => w ++ [(key, p)].

(** Objects that have never been stored: [&LRUItem{Value: v, Size: size}]. *)
Definition item (v : string) (size : Z) : @LRUItem string string :=
  mkItem v size None None.

(** Every location holds an object of size 50. *)
Definition heap50 : loc → @LRUItem string string := fun _ => item "test" 50.

(** The cache [New(max, nil, record)] makes, in a given store. *)
Definition start (max : Z) (h : loc → @LRUItem string string)
    : result (@State string _ _ string Log) :=
  match New max None (Some record) with
  | inr c => Done (fresh c h [])
  | inl _ => Panic
  end.


(** Location 1 holds an object as large as an [int] can say, location 2 one
    of size 1. *)
Definition heapBig : loc → @LRUItem string string :=
  fun p => if decide (p = 1%nat) then item "big" GoInt.max_int else item "one" 1.

(** The abstract of a state the scenarios compare. *)
Definition St : Type := @State string _ _ string Log.

Definition valueOf (s : St) (it : option loc) : option string :=
  match it with
  | Some p => Some (Value (heap s p))
  | None => None
  end.

(** [TestPut_ItemExists] *)
Definition put_twice : result (option string * option string) :=
  s ← start 100 (fun p => if decide (p = 1%nat) then item "test1" 50 else item "test2" 50);
  s ← after (Put 10 "test1" 1%nat s);
  r ← Put 10 "test1" 2%nat s;
  g ← Get 10 "test1" r.2;
  Done (r.1, valueOf g.2 g.1).


(** The producer of [TestBasicTest_Eviction2]: a new object of size 50 at
    every call; the environment counts the objects allocated. *)
Definition produce50 : string → nat → option loc * nat :=
  fun _ n => (Some n, S n).


(** The state a run ends in (an empty cache if it does not end). *)
Definition reached (r : result St) : St :=
  match r with
  | Done s => s
  | _ => fresh (mkCache 1 0 [] ∅ None None) heap50 []
  end.

(** test1 then test2 stored in a cache of capacity 128. *)
Definition two_items : St :=
  reached (s ← start 128 heap50; run 10 [OpPut "test1" 1%nat; OpPut "test2" 2%nat] s).

(** [TestReplace_ItemExists] *)
Definition replace_existing : result (option string) :=
  s ← start 100 (fun p => if decide (p = 1%nat) then item "test1" 50 else item "test2" 50);
  s ← after (Put 10 "test1" 1%nat s);
  s ← after (Replace 10 "test1" 2%nat s);
  g ← Get 10 "test1" s;
  Done (valueOf g.2 g.1).

(** [TestEvictIf]: three objects of size 50 in a cache of capacity 200, then
    the entries whose key is test2 evicted; the hook log is returned too. *)
Definition evict_test2 : result (bool * bool * bool * Log) :=
  s ← start 200 heap50;
  s ← run 10 [OpPut "test1" 1%nat; OpPut "test2" 2%nat; OpPut "test3" 3%nat] s;
  r ← EvictIf ["test3"; "test1"; "test2"] (fun k => bool_decide (k = "test2")) s;
  Done (Has "test1" r.2, Has "test2" r.2, Has "test3" r.2, world r.2).

(** [TestMakeRoom]: the hook log, the empty space and the capacity after
    [MakeRoom(100)] on a cache of capacity 160 that holds test1 and test2. *)
Definition make_room : result (Log * Z * Z * bool * bool) :=
  s ← start 160 heap50;
  s ← run 10 [OpPut "test1" 1%nat; OpPut "test2" 2%nat; OpMakeRoom 100] s;
  Done (world s, EmptySpace s, MaxSize s, Has "test1" s, Has "test2" s).

(** Location 9 holds an object of size 200, the others objects of size 50. *)
Definition heapOver : loc → @LRUItem string string :=
  fun p => if decide (p = 9%nat) then item "big" 200 else item "test" 50.

(** An object of size 200 stored in a cache of capacity 128 that holds test1:
    [currentSize] before and after, the presence of the two keys, the hook
    log. *)
Definition oversized : result (Z * Z * bool * bool * Log) :=
  s ← start 128 heapOver;
  s ← after (Put 10 "test1" 1%nat s);
  s' ← after (Put 10 "big" 9%nat s);
  Done (currentSize (cache s), currentSize (cache s'),
        Has "test1" s', Has "big" s', world s').

(** test1 stored in a cache of capacity 128. *)
Definition one_item : St :=
  reached (s ← start 128 heapOver; run 10 [OpPut "test1" 1%nat] s).

(** Location 1 holds an object of size 0, the others objects of size 200. *)
Definition heapZero : loc → @LRUItem string string :=
  fun p => if decide (p = 1%nat) then item "zero" 0 else item "big" 200.

(** A cache of capacity 128, without hook, in which the object of size 0 has
    been stored under two keys. *)
Definition stored_twice : St :=
  reached (run 10 [OpPut "a" 1%nat; OpPut "b" 1%nat]
             (fresh (mkCache 128 0 [] ∅ None None) heapZero [])).

(** The state of the pass that stores a third object, of size 200, after its
    first iteration. *)
Definition after_first_eviction : St :=
  reached (evictElement 1%nat (inserted "c" 2%nat stored_twice)).

(** A cache of capacity 128 with the producer of [TestBasicTest_Eviction2]
    and no hook, as [New] makes it. *)
Definition producing : @State string _ _ string nat :=
  fresh (mkCache 128 0 [] ∅ (Some produce50) None) heap50 0%nat.

(** The state of [putItem] before its eviction pass, when test3 is stored in
    the cache that holds test1 and test2: the capacity is exceeded. *)
Definition over_capacity : St := inserted "test3" 3%nat two_items.

(** A run on the cache that holds test1 and test2, with a MakeRoom in it. *)
Definition mixed_run : list (@op string) :=
  [OpPut "test3" 3%nat; OpMakeRoom 100; OpGet "test3"; OpReplace "test4" 3%nat;
   OpEvictIf ["test4"; "test3"] (fun k => bool_decide (k = "test3")); OpEvict "test4"].



(** The presence of a, b and c, and the hook log. *)
Definition presence (s : St) : bool * bool * bool * Log :=
  (Has "a" s, Has "b" s, Has "c" s, world s).


(** An object stored under a, another under b, the first stored under b in
    place of the second, then a third stored under a. *)
Definition replace_shared : result (bool * bool * bool * Log) :=
  s ← start 1000 heap50;
  s ← run 10 [OpPut "a" 1%nat; OpPut "b" 2%nat; OpReplace "b" 1%nat;
              OpReplace "a" 3%nat] s;
  Done (presence s).

(** Sizes [max_int] and 1 stored in a cache of capacity [max_int], then
    [MakeRoom(10)]: the empty space. *)
Definition make_room_overflow : result Z :=
  s ← start GoInt.max_int heapBig;
  s ← run 10 [OpPut "a" 1%nat; OpPut "b" 2%nat; OpMakeRoom 10] s;
  Done (EmptySpace s).

(** One object stored under a and b in a cache of capacity 160, then
    [MakeRoom(100)]. *)
Definition make_room_shared : result (bool * bool * bool * Log) :=
  s ← start 160 heap50;
  s ← run 10 [OpPut "a" 1%nat; OpPut "b" 1%nat; OpMakeRoom 100] s;
  Done (presence s).

(** One object stored under a and b, another under c, then the entries whose
    key is a evicted, the keys visited in the given order. *)
Definition evictif_shared (order : list string) : result (bool * bool * bool * Log) :=
  s ← start 1000 heap50;
  s ← run 10 [OpPut "a" 1%nat; OpPut "b" 1%nat; OpPut "c" 2%nat] s;
  r ← EvictIf order (fun k => bool_decide (k = "a")) s;
  Done (presence r.2).

End Tests.

(** * Properties *)

(** ** Go's [int] *)

Lemma wrap_in_range z : GoInt.in_range (GoInt.wrap z).
Proof.
  unfold GoInt.in_range, GoInt.wrap, GoInt.min_int, GoInt.max_int.
  pose proof (Z.mod_pos_bound (z + 2 ^ 63) (2 ^ 64)). lia.
Qed.

Lemma wrap_small z : GoInt.in_range z -> GoInt.wrap z = z.
Proof.
  unfold GoInt.in_range, GoInt.wrap, GoInt.min_int, GoInt.max_int. intros Hz.
  rewrite Z.mod_small; lia.
Qed.

Lemma wrap_add_l a b : GoInt.wrap (GoInt.wrap a + b) = GoInt.wrap (a + b).
Proof.
  unfold GoInt.wrap.
  replace ((a + 2 ^ 63) mod 2 ^ 64 - 2 ^ 63 + b + 2 ^ 63)
    with ((a + 2 ^ 63) mod 2 ^ 64 + b) by lia.
  rewrite Zplus_mod_idemp_l. do 2 f_equal. lia.
Qed.

Lemma wrap_sub_l a b : GoInt.wrap (GoInt.wrap a - b) = GoInt.wrap (a - b).
Proof. unfold Z.sub. apply wrap_add_l. Qed.

Section Facts.

Context {K : Type} `{Countable K} {V W : Type}.

Implicit Types (s : @State K _ _ V W) (c : @LRUCache K _ _ W).
Implicit Types (h : loc → @LRUItem K V) (m : gmap K loc) (o : @op K).
Implicit Types (key k : K) (p q : loc) (e : elem) (l : list (elem * loc)).

(** ** container/list *)

Lemma elem_of_Remove e l x : x ∈ Remove e l ↔ x.1 ≠ e ∧ x ∈ l.
Proof. unfold Remove. by rewrite list_elem_of_filter. Qed.

Lemma Remove_sublist e l : Remove e l `sublist_of` l.
Proof. apply sublist_filter. Qed.

Lemma Remove_NoDup e l : NoDup l.*1 → NoDup (Remove e l).*1.
Proof.
  intros Hnd. apply (sublist_NoDup _ l.*1); [exact Hnd|].
  apply fmap_sublist, Remove_sublist.
Qed.

Lemma Remove_absent e l : e ∉ l.*1 → Remove e l = l.
Proof.
  unfold Remove. induction l as [|x l IH]; [done|].
  rewrite fmap_cons, not_elem_of_cons. intros [Hx Hl].
  rewrite filter_cons_True by (simpl; congruence). by rewrite IH.
Qed.

Lemma Remove_back e p l : NoDup (l ++ [(e, p)]).*1 → Remove e (l ++ [(e, p)]) = l.
Proof.
  rewrite fmap_app, NoDup_app. intros (_ & Hdisj & _).
  unfold Remove. rewrite filter_app.
  rewrite filter_cons_False by (simpl; tauto).
  rewrite filter_nil, app_nil_r.
  apply Remove_absent. intros Hin. apply (Hdisj e Hin). simpl. left.
Qed.

Lemma MoveToFront_present e p l :
  NoDup l.*1 → (e, p) ∈ l → MoveToFront e l = (e, p) :: Remove e l.
Proof.
  intros Hnd Hin. unfold MoveToFront.
  destruct (list_find _ l) as [[i [e' p']]|] eqn:Hf.
  - apply list_find_Some in Hf as (Hi & He & _). simpl in He. subst e'.
    assert (p' = p) as ->; [|done].
    apply list_elem_of_lookup in Hin as [j Hj].
    assert (i = j) as ->.
    { eapply NoDup_lookup; [exact Hnd| |]; rewrite list_lookup_fmap.
      - by rewrite Hi. - by rewrite Hj. }
    congruence.
  - apply list_find_None in Hf. rewrite Forall_forall in Hf.
    by destruct (Hf _ Hin).
Qed.

(** ** The sum of the sizes *)

Lemma sumSizes_empty h : sumSizes h ∅ = 0.
Proof. unfold sumSizes. by rewrite fmap_empty, map_fold_empty. Qed.

Lemma sumSizes_insert h m k p :
  m !! k = None → sumSizes h (<[k := p]> m) = Size (h p) + sumSizes h m.
Proof.
  intros Hk. unfold sumSizes. rewrite fmap_insert.
  rewrite map_fold_insert_L; [done| |by rewrite lookup_fmap, Hk].
  intros. lia.
Qed.

Lemma sumSizes_delete h m k p :
  m !! k = Some p → sumSizes h m = Size (h p) + sumSizes h (delete k m).
Proof.
  intros Hk. unfold sumSizes. rewrite fmap_delete.
  rewrite (map_fold_delete_L _ _ k (Size (h p))); [done| |by rewrite lookup_fmap, Hk].
  intros. lia.
Qed.

Lemma sumSizes_ext h h' m :
  (∀ k p, m !! k = Some p → Size (h' p) = Size (h p)) →
  sumSizes h' m = sumSizes h m.
Proof.
  intros Heq. unfold sumSizes. f_equal. apply map_fmap_ext. exact Heq.
Qed.

Lemma sumSizes_nonneg h m :
  map_Forall (fun _ p => 0 <= Size (h p)) m → 0 <= sumSizes h m.
Proof.
  induction m as [|k p m Hk IH] using map_ind; intros Hall.
  - by rewrite sumSizes_empty.
  - rewrite sumSizes_insert by done.
    apply map_Forall_insert in Hall as [Hp Hm]; [|done].
    specialize (IH Hm). lia.
Qed.

Lemma sumSizes_member h m k p :
  map_Forall (fun _ p => 0 <= Size (h p)) m → m !! k = Some p →
  0 <= Size (h p) <= sumSizes h m.
Proof.
  intros Hall Hk. rewrite (sumSizes_delete h m k p Hk).
  pose proof (Hall k p Hk) as Hp. simpl in Hp.
  assert (0 <= sumSizes h (delete k m)); [|lia].
  apply sumSizes_nonneg. intros j q Hj.
  apply lookup_delete_Some in Hj as [_ Hj]. by apply (Hall j q).
Qed.

(** ** [evictElement] and [putItem] on a well-formed state *)

Lemma fst_inj_NoDup (l : list (elem * loc)) e p q :
  NoDup l.*1 → (e, p) ∈ l → (e, q) ∈ l → p = q.
Proof.
  intros Hnd Hp Hq.
  apply list_elem_of_lookup in Hp as [i Hi].
  apply list_elem_of_lookup in Hq as [j Hj].
  assert (i = j) as ->; [|congruence].
  eapply NoDup_lookup; [exact Hnd| |]; rewrite list_lookup_fmap.
  - by rewrite Hi.
  - by rewrite Hj.
Qed.

Lemma evictElement_linked s p key e :
  elementKey (heap s p) = Some key →
  elementListItem (heap s p) = Some e →
  evictElement p s = Done (evicted key e p s).
Proof.
  intros Hk He. unfold evictElement, evicted. rewrite Hk, He. simpl.
  unfold set_world, set_cache, set_orderedItems, set_items, set_currentSize.
  simpl. destruct (onevict (cache s)); reflexivity.
Qed.

Lemma putItem_inserted fuel key p s :
  putItem fuel key p s = evictAsNeeded fuel (inserted key p s).
Proof. reflexivity. Qed.

Lemma wf_held s key p :
  wf s → items (cache s) !! key = Some p →
  elementKey (heap s p) = Some key ∧
  ∃ e, elementListItem (heap s p) = Some e ∧ (e, p) ∈ orderedItems (cache s).
Proof. intros Hwf Hk. exact (wf_index s Hwf key p Hk). Qed.

Lemma wf_listed s e p :
  wf s → (e, p) ∈ orderedItems (cache s) →
  elementListItem (heap s p) = Some e ∧
  ∃ k, elementKey (heap s p) = Some k ∧ items (cache s) !! k = Some p.
Proof.
  intros Hwf Hin. pose proof (wf_list s Hwf) as Hl.
  rewrite Forall_forall in Hl. exact (Hl (e, p) Hin).
Qed.

Lemma wf_evicted s key e p :
  wf s → items (cache s) !! key = Some p →
  elementListItem (heap s p) = Some e →
  wf (evicted key e p s).
Proof.
  intros Hwf Hk He.
  destruct (wf_held s key p Hwf Hk) as (Hpk & e0 & He0 & Hin).
  assert (e0 = e) as -> by congruence.
  constructor; simpl.
  - apply Remove_NoDup, Hwf.
  - pose proof (wf_alloc s Hwf) as Ha. rewrite Forall_forall in Ha |- *.
    intros x Hx. apply elem_of_Remove in Hx as [_ Hx]. by apply Ha.
  - intros k' p' Hk'. simpl.
    apply lookup_delete_Some in Hk' as [Hne Hk'].
    destruct (wf_held s k' p' Hwf Hk') as (Hpk' & e' & He' & Hin').
    split; [done|]. exists e'. split; [done|].
    apply elem_of_Remove. split; [|done]. simpl. intros ->.
    assert (p' = p) as -> by (eapply fst_inj_NoDup; [apply Hwf|done..]).
    congruence.
  - rewrite Forall_forall. intros [e' p'] Hx. simpl.
    apply elem_of_Remove in Hx as [Hne Hx]. simpl in Hne.
    destruct (wf_listed s e' p' Hwf Hx) as (He' & k' & Hpk' & Hk').
    split; [done|]. exists k'. split; [done|].
    rewrite lookup_delete_ne; [done|]. intros <-.
    assert (p' = p) as -> by congruence. congruence.
Qed.

Lemma wf_inserted s key p :
  wf s → items (cache s) !! key = None →
  (∀ k, items (cache s) !! k ≠ Some p) →
  wf (inserted key p s).
Proof.
  intros Hwf Hk Hp.
  pose proof (wf_alloc s Hwf) as Ha. rewrite Forall_forall in Ha.
  assert (∀ e q, (e, q) ∈ orderedItems (cache s) → q ≠ p) as Hlist.
  { intros e q Hin ->.
    destruct (wf_listed s e p Hwf Hin) as (_ & k & _ & Hk'). by apply (Hp k). }
  constructor; simpl.
  - apply NoDup_cons. split; [|apply Hwf].
    intros Hin. apply list_elem_of_fmap in Hin as ([e q] & He & Hin).
    simpl in He. subst e. specialize (Ha _ Hin). simpl in Ha. lia.
  - apply Forall_cons. split; [simpl; lia|].
    rewrite Forall_forall. intros x Hx. specialize (Ha x Hx). lia.
  - intros k' p' Hk'. simpl. unfold store.
    apply lookup_insert_Some in Hk' as [[<- <-]|[Hne Hk']].
    + rewrite decide_True by done. simpl. split; [done|].
      exists (nextElem s). split; [done|]. left.
    + rewrite decide_False by (intros ->; by apply (Hp k')).
      destruct (wf_held s k' p' Hwf Hk') as (Hpk' & e' & He' & Hin').
      split; [done|]. exists e'. split; [done|]. by right.
  - apply Forall_cons. split.
    + simpl. unfold store. rewrite decide_True by done. simpl.
      split; [done|]. exists key. split; [done|]. by rewrite lookup_insert_eq.
    + rewrite Forall_forall. intros [e' p'] Hx. simpl. unfold store.
      rewrite decide_False by (by apply (Hlist e')).
      destruct (wf_listed s e' p' Hwf Hx) as (He' & k' & Hpk' & Hk').
      split; [done|]. exists k'. split; [done|].
      rewrite lookup_insert_ne; [done|]. intros <-. congruence.
Qed.

Lemma accounted_evicted s key e p :
  accounted s → items (cache s) !! key = Some p → accounted (evicted key e p s).
Proof.
  unfold accounted. simpl. intros Hacc Hk. rewrite Hacc.
  unfold GoInt.sub. rewrite wrap_sub_l. f_equal.
  rewrite (sumSizes_delete (heap s) _ key p Hk). lia.
Qed.

Lemma sumSizes_store h p it m :
  Size it = Size (h p) → sumSizes (store p it h) m = sumSizes h m.
Proof.
  intros Hsz. apply sumSizes_ext. intros k q _. unfold store.
  by destruct (decide (q = p)) as [->|].
Qed.

Lemma accounted_inserted s key p :
  accounted s → items (cache s) !! key = None → accounted (inserted key p s).
Proof.
  unfold accounted. simpl. intros Hacc Hk. rewrite Hacc.
  unfold GoInt.add. rewrite wrap_add_l. f_equal.
  rewrite sumSizes_store by done.
  rewrite sumSizes_insert by done. lia.
Qed.

(** ** The eviction pass *)

Lemma evictElement_maxSize p s s' :
  evictElement p s = Done s' → maxSize (cache s') = maxSize (cache s).
Proof.
  unfold evictElement.
  destruct (elementKey (heap s p)); [|done].
  destruct (elementListItem (heap s p)); [|done]. simpl.
  destruct (onevict (cache s)); intros [= <-]; reflexivity.
Qed.

(** Whenever the pass returns, the loop condition is false and the capacity
    is the one it started with; nothing is assumed of the state. *)
Lemma evictAsNeeded_settled fuel : ∀ s s',
  evictAsNeeded fuel s = Done s' →
  settled s' ∧ maxSize (cache s') = maxSize (cache s).
Proof.
  induction fuel as [|fuel IH]; intros s s'; simpl; case_bool_decide as Hc;
    try done; try (intros [= <-]; done).
  destruct (Back (orderedItems (cache s))) as [back|]; [|done]. simpl.
  destruct (evictElement back.2 s) as [s1| |] eqn:He; [|done..]. simpl.
  intros Hrec. destruct (IH _ _ Hrec) as [Hs Hm]. split; [done|].
  rewrite Hm. by eapply evictElement_maxSize.
Qed.

Lemma settled_bounded s : settled s → bounded s.
Proof.
  unfold settled, bounded. intros Hs.
  destruct (orderedItems (cache s)) as [|x l] eqn:Hl; [by right|left].
  simpl in Hs. lia.
Qed.

Lemma evictBack_wf s l e p :
  wf s → orderedItems (cache s) = l ++ [(e, p)] →
  ∃ key, items (cache s) !! key = Some p ∧
    evictElement p s = Done (evicted key e p s) ∧
    orderedItems (cache (evicted key e p s)) = l ∧
    wf (evicted key e p s).
Proof.
  intros Hwf Hl.
  assert ((e, p) ∈ orderedItems (cache s)) as Hin.
  { rewrite Hl. apply elem_of_app. right. left. }
  destruct (wf_listed s e p Hwf Hin) as (He & key & Hpk & Hk).
  exists key. split; [done|]. split; [by apply evictElement_linked|].
  split; [|by apply wf_evicted].
  simpl. rewrite Hl. apply Remove_back. rewrite <- Hl. apply Hwf.
Qed.

Lemma evictBack_step s s' :
  wf s → evictBack s s' →
  wf s' ∧ heap s' = heap s ∧ nextElem s' = nextElem s ∧
  maxSize (cache s') = maxSize (cache s) ∧
  producer (cache s') = producer (cache s) ∧
  onevict (cache s') = onevict (cache s) ∧
  ∃ e p, orderedItems (cache s) = orderedItems (cache s') ++ [(e, p)].
Proof.
  intros Hwf (Hguard & l & key & e & p & Hl & Hk & ->).
  destruct (evictBack_wf s l e p Hwf Hl) as (key' & Hk' & _ & Hl' & Hwf').
  assert (key' = key) as ->.
  { destruct (wf_held s key p Hwf Hk) as [Hpk _].
    destruct (wf_held s key' p Hwf Hk') as [Hpk' _]. congruence. }
  split; [done|]. do 5 (split; [done|]).
  exists e, p. by rewrite Hl'.
Qed.

Lemma drained_wf s s' : wf s → rtc evictBack s s' → wf s'.
Proof.
  intros Hwf Hd. induction Hd as [|s s1 s' Hstep _ IH]; [done|].
  apply IH. by apply (evictBack_step s s1).
Qed.

Lemma drained_frame s s' :
  wf s → rtc evictBack s s' →
  heap s' = heap s ∧ nextElem s' = nextElem s ∧
  maxSize (cache s') = maxSize (cache s) ∧
  producer (cache s') = producer (cache s) ∧
  onevict (cache s') = onevict (cache s) ∧
  ∃ ev, orderedItems (cache s) = orderedItems (cache s') ++ ev.
Proof.
  intros Hwf Hd. induction Hd as [|s s1 s' Hstep _ IH].
  - do 5 (split; [done|]). exists []. by rewrite app_nil_r.
  - destruct (evictBack_step s s1 Hwf Hstep)
      as (Hwf1 & Hh & Hn & Hm & Hp & Ho & e & p & Hl).
    destruct (IH Hwf1) as (Hh' & Hn' & Hm' & Hp' & Ho' & ev & Hl').
    split; [congruence|]. split; [congruence|]. split; [congruence|].
    split; [congruence|]. split; [congruence|].
    exists (ev ++ [(e, p)]). rewrite Hl, Hl'. by rewrite app_assoc.
Qed.

(** On a well-formed state the pass returns once it has as much fuel as the
    recency list has entries, and it has evicted from the back only. *)
Lemma evictAsNeeded_wf fuel : ∀ s,
  wf s → (length (orderedItems (cache s)) ≤ fuel)%nat →
  ∃ s', evictAsNeeded fuel s = Done s' ∧ rtc evictBack s s' ∧ settled s'.
Proof.
  induction fuel as [|fuel IH]; intros s Hwf Hlen; simpl;
    case_bool_decide as Hc.
  - lia.
  - exists s. split; [done|]. split; [done|]. exact Hc.
  - destruct Hc as [Hguard Hpos].
    destruct (orderedItems (cache s)) as [|x l0] eqn:Hl using rev_ind;
      [simpl in Hpos; lia|]. clear IHl0.
    destruct x as [e p]. unfold Back. rewrite last_snoc. simpl.
    destruct (evictBack_wf s l0 e p Hwf Hl) as (key & Hk & He & Hl' & Hwf').
    rewrite He. simpl.
    destruct (IH (evicted key e p s) Hwf') as (s' & Hrun & Hd & Hs).
    { rewrite Hl'. rewrite length_app in Hlen. simpl in Hlen. lia. }
    exists s'. split; [done|]. split; [|done].
    eapply rtc_l; [|exact Hd]. split; [done|]. by exists l0, key, e, p.
  - exists s. split; [done|]. split; [done|]. exact Hc.
Qed.

Lemma drained_accounted s s' :
  wf s → accounted s → rtc evictBack s s' → accounted s'.
Proof.
  intros Hwf Hacc Hd. induction Hd as [|s s1 s' Hstep _ IH]; [done|].
  apply IH.
  - by apply (evictBack_step s s1).
  - destruct Hstep as (_ & l & key & e & p & _ & Hk & ->).
    by apply accounted_evicted.
Qed.

Lemma drained_length s s' :
  wf s → rtc evictBack s s' →
  (length (orderedItems (cache s')) ≤ length (orderedItems (cache s)))%nat.
Proof.
  intros Hwf Hd.
  destruct (drained_frame s s' Hwf Hd) as (_ & _ & _ & _ & _ & ev & ->).
  rewrite length_app. lia.
Qed.

Lemma putItem_wf fuel key p s :
  wf s → items (cache s) !! key = None →
  (∀ k, items (cache s) !! k ≠ Some p) →
  (length (orderedItems (cache s)) < fuel)%nat →
  ∃ s', putItem fuel key p s = Done s' ∧
    rtc evictBack (inserted key p s) s' ∧ settled s' ∧ wf s'.
Proof.
  intros Hwf Hk Hp Hlen. rewrite putItem_inserted.
  pose proof (wf_inserted s key p Hwf Hk Hp) as Hwf1.
  destruct (evictAsNeeded_wf fuel (inserted key p s) Hwf1) as (s' & Hrun & Hd & Hs).
  { simpl. lia. }
  exists s'. do 3 (split; [done|]). by eapply drained_wf.
Qed.

(** ** The calls on a well-formed, accounted state *)

Lemma putItem_good fuel key p s :
  good s → items (cache s) !! key = None →
  (∀ k, items (cache s) !! k ≠ Some p) →
  (length (orderedItems (cache s)) < fuel)%nat →
  ∃ s', putItem fuel key p s = Done s' ∧ good s' ∧
    (length (orderedItems (cache s')) ≤ S (length (orderedItems (cache s))))%nat.
Proof.
  intros [Hwf Hacc] Hk Hp Hlen.
  destruct (putItem_wf fuel key p s Hwf Hk Hp Hlen) as (s' & Hrun & Hd & _ & Hwf').
  pose proof (wf_inserted s key p Hwf Hk Hp) as Hwf1.
  exists s'. split; [done|]. split.
  - split; [done|]. eapply drained_accounted; [exact Hwf1| |exact Hd].
    by apply accounted_inserted.
  - apply (drained_length _ _ Hwf1) in Hd. simpl in Hd. lia.
Qed.

Lemma evictElement_good key p s :
  good s → items (cache s) !! key = Some p →
  ∃ e, (e, p) ∈ orderedItems (cache s) ∧
    evictElement p s = Done (evicted key e p s) ∧ good (evicted key e p s).
Proof.
  intros [Hwf Hacc] Hk.
  destruct (wf_held s key p Hwf Hk) as (Hpk & e & He & Hin).
  exists e. split; [done|]. split; [by apply evictElement_linked|].
  split; [by apply wf_evicted|by apply accounted_evicted].
Qed.

Lemma length_evicted key e p s :
  (length (orderedItems (cache (evicted key e p s)))
   ≤ length (orderedItems (cache s)))%nat.
Proof. simpl. apply length_filter. Qed.

Lemma Remove_perm e p l :
  NoDup l.*1 → (e, p) ∈ l → (e, p) :: Remove e l ≡ₚ l.
Proof.
  induction l as [|x l IH]; [by intros _ ?%elem_of_nil|].
  rewrite fmap_cons, NoDup_cons. intros [Hx Hnd] Hin.
  apply elem_of_cons in Hin as [<-|Hin].
  - unfold Remove. rewrite filter_cons_False by (simpl; tauto).
    fold (Remove e l). by rewrite Remove_absent.
  - assert (x.1 ≠ e) as Hne.
    { intros <-. apply Hx. by apply (list_elem_of_fmap_2 fst _ (x.1, p)). }
    unfold Remove. rewrite filter_cons_True by done. fold (Remove e l).
    rewrite Permutation_swap. f_equiv. by apply IH.
Qed.

Lemma wf_permuted s l :
  wf s → l ≡ₚ orderedItems (cache s) →
  wf (set_cache (set_orderedItems l (cache s)) s).
Proof.
  intros Hwf Hperm. constructor; simpl.
  - rewrite Hperm. apply Hwf.
  - rewrite Hperm. apply Hwf.
  - intros k p Hk. destruct (wf_held s k p Hwf Hk) as (Hpk & e & He & Hin).
    split; [done|]. exists e. split; [done|]. by rewrite Hperm.
  - rewrite Hperm. apply Hwf.
Qed.

Lemma Get_hit s key p :
  wf s → items (cache s) !! key = Some p →
  ∃ e, (e, p) ∈ orderedItems (cache s) ∧
    ∀ fuel, Get fuel key s =
      Done (Some p,
            set_cache (set_orderedItems ((e, p) :: Remove e (orderedItems (cache s)))
                         (cache s)) s).
Proof.
  intros Hwf Hk. destruct (wf_held s key p Hwf Hk) as (Hpk & e & He & Hin).
  exists e. split; [done|]. intros fuel. unfold Get. rewrite Hk, He. simpl.
  by rewrite (MoveToFront_present e p) by (done || apply Hwf).
Qed.

Lemma wf_ext s s' :
  heap s' = heap s → nextElem s' = nextElem s →
  orderedItems (cache s') = orderedItems (cache s) →
  items (cache s') = items (cache s) →
  wf s → wf s'.
Proof.
  intros Hh Hn Hl Hi [? ? ? ?]. constructor; rewrite ?Hh, ?Hn, ?Hl, ?Hi; done.
Qed.

Lemma good_ext s s' :
  heap s' = heap s → nextElem s' = nextElem s →
  orderedItems (cache s') = orderedItems (cache s) →
  items (cache s') = items (cache s) →
  currentSize (cache s') = currentSize (cache s) →
  good s → good s'.
Proof.
  intros Hh Hn Hl Hi Hc [Hwf Hacc]. split; [by apply (wf_ext s)|].
  unfold accounted in *. by rewrite Hh, Hi, Hc.
Qed.

Lemma good_New maxSize producer onevict c h w :
  New maxSize producer onevict = inr c → good (fresh c h w).
Proof.
  unfold New. case_bool_decide; [done|]. intros [= <-]. split.
  - constructor; simpl; try done; constructor.
  - unfold accounted. simpl. by rewrite sumSizes_empty.
Qed.

Lemma evictIfStep_good predicate key s :
  good s →
  ∃ s', evictIfStep predicate key s = Done s' ∧ good s' ∧
    (length (orderedItems (cache s')) ≤ length (orderedItems (cache s)))%nat.
Proof.
  intros Hg. unfold evictIfStep.
  destruct (items (cache s) !! key) as [p|] eqn:Hk; [|by exists s].
  destruct (predicate key); [|by exists s].
  destruct (evictElement_good key p s Hg Hk) as (e & _ & -> & Hg').
  eexists. split; [done|]. split; [done|]. apply length_evicted.
Qed.

Lemma evictIfLoop_good predicate order : ∀ s,
  good s →
  ∃ s', evictIfLoop predicate order s = Done s' ∧ good s' ∧
    (length (orderedItems (cache s')) ≤ length (orderedItems (cache s)))%nat.
Proof.
  induction order as [|key order IH]; intros s Hg; simpl; [by exists s|].
  destruct (evictIfStep_good predicate key s Hg) as (s1 & -> & Hg1 & Hl1). simpl.
  destruct (IH s1 Hg1) as (s' & -> & Hg' & Hl').
  exists s'. split; [done|]. split; [done|]. lia.
Qed.

Lemma step_good fuel o s :
  good s → op_ok o s → (length (orderedItems (cache s)) < fuel)%nat →
  ∃ s', step fuel o s = Done s' ∧ good s' ∧
    (length (orderedItems (cache s')) ≤ S (length (orderedItems (cache s))))%nat.
Proof.
  intros Hg Hok Hlen. destruct o as [key p|key|key p|key|order predicate|size];
    simpl in *.
  - (* Put *)
    unfold Put. destruct (items (cache s) !! key) as [q|] eqn:Hk.
    + exists s. split; [done|]. split; [done|]. lia.
    + destruct (putItem_good fuel key p s Hg Hk) as (s' & -> & Hg' & Hl'); [|done|].
      { intros k Hkp. rewrite (Hok k p Hkp eq_refl) in Hkp. congruence. }
      by exists s'.
  - (* Get *)
    destruct (items (cache s) !! key) as [q|] eqn:Hk.
    + destruct (Get_hit s key q (proj1 Hg) Hk) as (e & Hin & ->). simpl.
      pose proof (Remove_perm e q _ (wf_nodup s (proj1 Hg)) Hin) as Hperm.
      eexists. split; [done|]. split.
      * destruct Hg as [Hwf Hacc]. split; [by apply wf_permuted|exact Hacc].
      * simpl. change (length ((e, q) :: Remove e (orderedItems (cache s)))
                        ≤ S (length (orderedItems (cache s))))%nat.
        rewrite Hperm. lia.
    + unfold Get. rewrite Hk. unfold produceItem.
      destruct (producer (cache s)) as [f|] eqn:Hf.
      2:{ exists s. split; [done|]. split; [done|]. lia. }
      destruct (f key (world s)) as [[p|] w] eqn:Hfk.
      2:{ eexists. split; [done|]. split; [|simpl; lia].
          by apply (good_ext s). }
      destruct (putItem_good fuel key p (set_world w s)) as (s' & -> & Hg' & Hl');
        [by apply (good_ext s)|done| |done|by exists s'].
      simpl in Hok.
      intros k Hkp. simpl in Hkp. rewrite (Hok k p Hkp eq_refl) in Hkp. congruence.
  - (* Replace *)
    unfold Replace. destruct (items (cache s) !! key) as [q|] eqn:Hk.
    + destruct (evictElement_good key q s Hg Hk) as (e & _ & -> & Hg1). simpl.
      pose proof (length_evicted key e q s) as Hl1.
      destruct (putItem_good fuel key p (evicted key e q s) Hg1)
        as (s' & -> & Hg' & Hl').
      * simpl. apply lookup_delete_eq.
      * intros k Hkp. simpl in Hkp.
        apply lookup_delete_Some in Hkp as [Hne Hkp].
        by apply Hne, eq_sym, (Hok k p).
      * lia.
      * exists s'. split; [done|]. split; [done|]. lia.
    + simpl. destruct (putItem_good fuel key p s Hg Hk) as (s' & -> & Hg' & Hl');
        [|done|by exists s'].
      intros k Hkp. rewrite (Hok k p Hkp eq_refl) in Hkp. congruence.
  - (* Evict *)
    unfold Evict. destruct (items (cache s) !! key) as [q|] eqn:Hk.
    + destruct (evictElement_good key q s Hg Hk) as (e & _ & -> & Hg1). simpl.
      eexists. split; [done|]. split; [done|].
      pose proof (length_evicted key e q s). simpl in *. lia.
    + exists s. split; [done|]. split; [done|]. lia.
  - (* EvictIf *)
    unfold EvictIf.
    destruct (evictIfLoop_good predicate order s Hg) as (s' & -> & Hg' & Hl').
    exists s'. split; [done|]. split; [done|]. lia.
  - (* MakeRoom *)
    unfold MakeRoom.
    set (s1 := set_cache (set_maxSize _ (cache s)) s).
    assert (good s1) as Hg1 by (by apply (good_ext s)).
    destruct (evictAsNeeded_wf fuel s1 (proj1 Hg1)) as (s2 & -> & Hd & _).
    { simpl. lia. }
    simpl. eexists. split; [done|].
    pose proof (drained_wf s1 s2 (proj1 Hg1) Hd) as Hwf2.
    pose proof (drained_accounted s1 s2 (proj1 Hg1) (proj2 Hg1) Hd) as Hacc2.
    pose proof (drained_length s1 s2 (proj1 Hg1) Hd) as Hl2.
    split; [by apply (good_ext s2)|]. simpl in *. lia.
Qed.

(** ** Size accounting over runs *)

Lemma run_good fuel ops : ∀ s,
  good s → (length (orderedItems (cache s)) + length ops < fuel)%nat →
  disciplined fuel ops s →
  ∃ s', run fuel ops s = Done s' ∧ good s'.
Proof.
  induction ops as [|o ops IH]; intros s Hg Hlen Hd; simpl in *; [by exists s|].
  destruct Hd as [Hok Hd].
  destruct (step_good fuel o s Hg Hok) as (s1 & Hstep & Hg1 & Hl1); [lia|].
  rewrite Hstep in Hd |- *. simpl.
  apply IH; [done|lia|done].
Qed.

(** Along a run in which no call stores an object that another key holds,
    from a cache that [New] has just made, the index and the recency list stay
    in one-to-one correspondence. *)
Lemma run_wf maxSize producer onevict c h w fuel ops :
  New maxSize producer onevict = inr c →
  (length ops < fuel)%nat →
  disciplined fuel ops (fresh c h w) →
  ∃ s', run fuel ops (fresh c h w) = Done s' ∧ wf s'.
Proof.
  intros Hnew Hlen Hd.
  destruct (run_good fuel ops (fresh c h w)) as (s' & Hrun & Hwf & _);
    [by eapply good_New| |done|by exists s'].
  assert (orderedItems c = []) as Hl.
  { unfold New in Hnew. case_bool_decide; [done|]. by injection Hnew as <-. }
  simpl. rewrite Hl. simpl. lia.
Qed.


(** ** Construction *)

(** C9.  [New] fails, with the configuration error, exactly when
    [maxSize ≤ 0]; the cache it makes otherwise holds nothing, reports the
    capacity it was given and has all of it as empty space. *)
Theorem New_spec maxSize producer onevict :
  GoInt.in_range maxSize →
  ((∃ err, New maxSize producer onevict = inl err) ↔ maxSize <= 0) ∧
  (maxSize <= 0 → New maxSize producer onevict = inl errCacheSize) ∧
  (∀ c, New maxSize producer onevict = inr c →
     0 < maxSize ∧ items c = ∅ ∧ orderedItems c = [] ∧
     ∀ h w, (∀ key, Has key (fresh c h w) = false) ∧
            MaxSize (fresh c h w) = maxSize ∧
            EmptySpace (fresh c h w) = maxSize).
Proof.
  intros Hr. unfold New. case_bool_decide as Hm.
  - split; [split; [done|by eexists]|]. split; [done|]. intros c [=].
  - split; [split; [by intros [err [=]]|lia]|]. split; [lia|].
    intros c [= <-]. simpl. split; [lia|]. do 2 (split; [done|]).
    intros h w. split; [|split; [done|]].
    + intros key. unfold Has. simpl. rewrite lookup_empty.
      apply bool_decide_eq_false. by intros [? ?].
    + unfold EmptySpace, GoInt.sub. simpl. rewrite Z.sub_0_r. by apply wrap_small.
Qed.

(** ** Sizes are not validated *)

(** C10.  [Put] takes an item of negative size: on a cache that [New] has
    just made, with a key that is therefore absent, it returns a nil error,
    [currentSize] is the negative size and [EmptySpace()] exceeds
    [MaxSize()]. *)
Theorem Put_negative_size maxSize producer onevict c h w fuel key p :
  New maxSize producer onevict = inr c →
  GoInt.in_range maxSize →
  GoInt.min_int <= Size (h p) < 0 →
  maxSize - Size (h p) <= GoInt.max_int →
  ∃ s', Put fuel key p (fresh c h w) = Done (None, s') ∧
    currentSize (cache s') = Size (h p) ∧
    MaxSize s' < EmptySpace s'.
Proof.
  unfold New. case_bool_decide as Hm; [done|]. intros [= <-] Hr Hsz Hfit.
  unfold Put. simpl. rewrite lookup_empty. rewrite putItem_inserted.
  assert (GoInt.add 0 (Size (h p)) = Size (h p)) as Hadd.
  { unfold GoInt.add. apply wrap_small. unfold GoInt.in_range, GoInt.max_int in *. lia. }
  assert (evictAsNeeded fuel (inserted key p (fresh (mkCache maxSize 0 [] ∅ producer onevict) h w))
          = Done (inserted key p (fresh (mkCache maxSize 0 [] ∅ producer onevict) h w))) as ->.
  { destruct fuel; simpl; rewrite Hadd; case_bool_decide; try done; lia. }
  eexists. split; [done|]. simpl. split; [done|].
  unfold MaxSize, EmptySpace, GoInt.sub. simpl. rewrite Hadd.
  rewrite wrap_small; [lia|]. unfold GoInt.in_range, GoInt.min_int, GoInt.max_int in *. lia.
Qed.

(** ** What a pass of evictions leaves *)

Lemma notified_snoc s key e p ev :
  elementKey (heap s p) = Some key →
  notified s (ev ++ [(e, p)]) = notified (evicted key e p s) ev.
Proof.
  intros Hk. unfold notified. rewrite foldr_app. simpl. rewrite Hk.
  by destruct (onevict (cache s)).
Qed.

Lemma drained_spec s s' :
  wf s → rtc evictBack s s' →
  ∃ ev, orderedItems (cache s) = orderedItems (cache s') ++ ev ∧
    world s' = notified s ev ∧
    ∀ k q, items (cache s') !! k = Some q ↔
           items (cache s) !! k = Some q ∧ q ∉ ev.*2.
Proof.
  intros Hwf Hd. induction Hd as [s|s s1 s' Hstep _ IH].
  - exists []. rewrite app_nil_r. split; [done|]. split; [done|].
    intros k q. split; [|tauto]. intros Hk. split; [done|]. apply not_elem_of_nil.
  - pose proof (evictBack_step s s1 Hwf Hstep) as (Hwf1 & _).
    destruct Hstep as (Hguard & l & key & e & p & Hl & Hk & ->).
    destruct (evictBack_wf s l e p Hwf Hl) as (key' & Hk' & _ & Hl1 & _).
    destruct (wf_held s key p Hwf Hk) as (Hpk & e0 & He0 & Hin0).
    destruct (IH Hwf1) as (ev & Hev & Hw & Hit).
    exists (ev ++ [(e, p)]). split; [|split].
    + rewrite Hl, app_assoc. f_equal.
      assert (key' = key) as -> by (destruct (wf_held s key' p Hwf Hk'); congruence).
      by rewrite <- Hev, Hl1.
    + rewrite Hw. symmetry. by apply notified_snoc.
    + intros k q. rewrite Hit. simpl. rewrite lookup_delete_Some.
      rewrite fmap_app, elem_of_app. simpl. rewrite list_elem_of_singleton.
      split.
      * intros [[Hne Hkq] Hq]. split; [done|]. intros [Hq'| ->]; [done|].
        destruct (wf_held s k p Hwf Hkq) as [Hpk' _]. congruence.
      * intros [Hkq Hq]. split; [|tauto]. split; [|done].
        intros <-. apply Hq. right. congruence.
Qed.

(** ** The invariants of the data model *)

Lemma inv_good s : inv s → good s.
Proof.
  intros [Hwf Hex Hnn Hcur]. split; [done|].
  unfold accounted. rewrite <- Hex. symmetry. by apply wrap_small.
Qed.

Lemma inv_ext s s' :
  heap s' = heap s → nextElem s' = nextElem s →
  orderedItems (cache s') = orderedItems (cache s) →
  items (cache s') = items (cache s) →
  currentSize (cache s') = currentSize (cache s) →
  inv s → inv s'.
Proof.
  intros Hh Hn Hl Hi Hc [Hwf Hex Hnn Hcur]. constructor.
  - by apply (wf_ext s).
  - unfold exact in *. by rewrite Hh, Hi, Hc.
  - unfold sizes_nonneg in *. by rewrite Hh, Hi.
  - by rewrite Hc.
Qed.

Lemma inv_evicted s key e p :
  inv s → items (cache s) !! key = Some p →
  elementListItem (heap s p) = Some e →
  inv (evicted key e p s) ∧
  currentSize (cache (evicted key e p s)) = currentSize (cache s) - Size (heap s p) ∧
  0 <= Size (heap s p).
Proof.
  intros [Hwf Hex Hnn Hcur] Hk He.
  pose proof (sumSizes_member (heap s) _ key p Hnn Hk) as Hp.
  pose proof (sumSizes_delete (heap s) _ key p Hk) as Hsum.
  unfold exact in Hex.
  assert (GoInt.sub (currentSize (cache s)) (Size (heap s p))
          = currentSize (cache s) - Size (heap s p)) as Hsub.
  { apply wrap_small. unfold GoInt.in_range, GoInt.min_int, GoInt.max_int in *. lia. }
  split; [|split; [exact Hsub|lia]]. constructor.
  - by apply wf_evicted.
  - unfold exact. simpl. rewrite Hsub. lia.
  - intros k q Hkq. simpl in Hkq. apply lookup_delete_Some in Hkq as [_ Hkq].
    by apply (Hnn k q).
  - simpl. rewrite Hsub.
    unfold GoInt.in_range, GoInt.min_int, GoInt.max_int in *. lia.
Qed.

Lemma evictBack_inv s s' :
  inv s → evictBack s s' →
  inv s' ∧ currentSize (cache s') <= currentSize (cache s).
Proof.
  intros Hinv (Hguard & l & key & e & p & Hl & Hk & ->).
  assert ((e, p) ∈ orderedItems (cache s)) as Hin.
  { rewrite Hl. apply elem_of_app. right. left. }
  destruct (wf_listed s e p (inv_wf s Hinv) Hin) as (He & _).
  destruct (inv_evicted s key e p Hinv Hk He) as (Hinv' & Hc & Hp).
  split; [done|]. lia.
Qed.

Lemma drained_inv s s' :
  inv s → rtc evictBack s s' →
  inv s' ∧ currentSize (cache s') <= currentSize (cache s).
Proof.
  intros Hinv Hd. induction Hd as [|s s1 s' Hstep _ IH]; [split; [done|lia]|].
  destruct (evictBack_inv s s1 Hinv Hstep) as [Hinv1 Hc1].
  destruct (IH Hinv1) as [Hinv' Hc']. split; [done|lia].
Qed.

Lemma inv_empty s :
  inv s → orderedItems (cache s) = [] →
  items (cache s) = ∅ ∧ currentSize (cache s) = 0.
Proof.
  intros [Hwf Hex Hnn Hcur] Hl.
  assert (items (cache s) = ∅) as Hi.
  { apply map_eq. intros k. rewrite lookup_empty.
    destruct (items (cache s) !! k) as [q|] eqn:Hk; [|done].
    destruct (wf_held s k q Hwf Hk) as (_ & e & _ & Hin).
    rewrite Hl in Hin. by apply elem_of_nil in Hin. }
  split; [done|]. unfold exact in Hex. by rewrite Hex, Hi, sumSizes_empty.
Qed.

Lemma inv_cur_nonneg s : inv s → 0 <= currentSize (cache s).
Proof.
  intros [Hwf Hex Hnn Hcur]. unfold exact in Hex. rewrite Hex.
  by apply sumSizes_nonneg.
Qed.

(** ** Recency order *)

Lemma Get_promotes fuel key p s :
  wf s → items (cache s) !! key = Some p →
  ∃ e s', Get fuel key s = Done (Some p, s') ∧
    (e, p) ∈ orderedItems (cache s) ∧
    orderedItems (cache s') = (e, p) :: Remove e (orderedItems (cache s)) ∧
    items (cache s') = items (cache s) ∧
    currentSize (cache s') = currentSize (cache s) ∧
    maxSize (cache s') = maxSize (cache s) ∧
    heap s' = heap s ∧ world s' = world s ∧ wf s'.
Proof.
  intros Hwf Hk. destruct (Get_hit s key p Hwf Hk) as (e & Hin & Hget).
  exists e. eexists. split; [apply Hget|]. split; [done|].
  do 6 (split; [done|]).
  apply wf_permuted; [done|]. apply Remove_perm; [apply Hwf|done].
Qed.


Lemma wf_empty s :
  wf s → orderedItems (cache s) = [] → items (cache s) = ∅.
Proof.
  intros Hwf Hl. apply map_eq. intros k. rewrite lookup_empty.
  destruct (items (cache s) !! k) as [q|] eqn:Hk; [|done].
  destruct (wf_held s k q Hwf Hk) as (_ & e & _ & Hin).
  rewrite Hl in Hin. by apply elem_of_nil in Hin.
Qed.

Lemma inv_inserted s key p :
  inv s → items (cache s) !! key = None →
  (∀ k, items (cache s) !! k ≠ Some p) →
  0 <= Size (heap s p) →
  currentSize (cache s) + Size (heap s p) <= GoInt.max_int →
  inv (inserted key p s) ∧
  currentSize (cache (inserted key p s)) = currentSize (cache s) + Size (heap s p).
Proof.
  intros Hinv Hk Hp Hsz Hfit.
  pose proof (inv_cur_nonneg s Hinv) as Hc0.
  destruct Hinv as [Hwf Hex Hnn Hcur].
  assert (GoInt.add (currentSize (cache s)) (Size (heap s p))
          = currentSize (cache s) + Size (heap s p)) as Hadd.
  { apply wrap_small. unfold GoInt.in_range, GoInt.min_int, GoInt.max_int in *. lia. }
  split; [|exact Hadd]. constructor.
  - by apply wf_inserted.
  - unfold exact in *. simpl. rewrite Hadd, sumSizes_store by done.
    rewrite sumSizes_insert by done. lia.
  - intros k q Hkq. simpl in *. unfold store.
    destruct (decide (q = p)) as [->|Hne]; [done|].
    apply lookup_insert_Some in Hkq as [[_ ->]|[_ Hkq]]; [done|].
    by apply (Hnn k q).
  - simpl. rewrite Hadd.
    unfold GoInt.in_range, GoInt.min_int, GoInt.max_int in *. lia.
Qed.

Lemma evictBack_inv_eq s s' :
  inv s → evictBack s s' →
  inv s' ∧ maxSize (cache s) < currentSize (cache s) ∧
  heap s' = heap s ∧ maxSize (cache s') = maxSize (cache s) ∧
  ∃ e q, orderedItems (cache s) = orderedItems (cache s') ++ [(e, q)] ∧
    currentSize (cache s') = currentSize (cache s) - Size (heap s q).
Proof.
  intros Hinv Hstep.
  destruct (evictBack_step s s' (inv_wf s Hinv) Hstep)
    as (_ & Hh & _ & Hm & _ & _ & e & q & Hl).
  destruct Hstep as (Hguard & l & key & e' & q' & Hl' & Hk & ->).
  assert (l = orderedItems (cache (evicted key e' q' s)) ∧ (e', q') = (e, q)) as [_ [= -> ->]].
  { rewrite Hl' in Hl. by apply app_inj_tail in Hl. }
  assert ((e, q) ∈ orderedItems (cache s)) as Hin.
  { rewrite Hl'. apply elem_of_app. right. left. }
  destruct (wf_listed s e q (inv_wf s Hinv) Hin) as (He & _).
  destruct (inv_evicted s key e q Hinv Hk He) as (Hinv' & Hc & Hp).
  do 4 (split; [done|]). by exists e, q.
Qed.

(** The entry at the front stays through the pass when it fits the capacity
    by itself. *)
Lemma drained_keeps_front s s' :
  rtc evictBack s s' → ∀ n p l,
  inv s → orderedItems (cache s) = (n, p) :: l →
  Size (heap s p) <= maxSize (cache s) →
  ∃ l', orderedItems (cache s') = (n, p) :: l'.
Proof.
  intros Hd. induction Hd as [s|s s1 s' Hstep _ IH]; intros n p l Hinv Hl Hfit.
  { by exists l. }
  destruct (evictBack_inv_eq s s1 Hinv Hstep)
    as (Hinv1 & Hguard & Hh & Hm & e & q & Hl1 & Hc).
  destruct (orderedItems (cache s1)) as [|x l1] eqn:Hl1'.
  - rewrite Hl in Hl1. simpl in Hl1. injection Hl1 as <- <- _.
    destruct (inv_empty s1 Hinv1 Hl1') as [_ Hc0]. lia.
  - rewrite Hl in Hl1. simpl in Hl1. injection Hl1 as <- _.
    apply (IH n p l1); [done|done|]. by rewrite Hh, Hm.
Qed.

(** ** Insertion *)

Lemma front_indexed key p s s' l' :
  wf s' → heap s' = heap (inserted key p s) →
  orderedItems (cache s') = (nextElem s, p) :: l' →
  items (cache s') !! key = Some p.
Proof.
  intros Hwf Hh Hl.
  assert ((nextElem s, p) ∈ orderedItems (cache s')) as Hin by (rewrite Hl; left).
  destruct (wf_listed s' _ p Hwf Hin) as (_ & k & Hk & Hkp).
  rewrite Hh in Hk. simpl in Hk. unfold store in Hk.
  rewrite decide_True in Hk by done. simpl in Hk. congruence.
Qed.

(** What [putItem] returns for a key that is absent and an object that is
    not held: the new entry is indexed, unless the pass has emptied the
    cache. *)
Lemma putItem_outcome fuel key p s :
  wf s → items (cache s) !! key = None →
  (∀ k, items (cache s) !! k ≠ Some p) →
  (length (orderedItems (cache s)) < fuel)%nat →
  ∃ s', putItem fuel key p s = Done s' ∧ wf s' ∧ settled s' ∧
    rtc evictBack (inserted key p s) s' ∧
    (items (cache s') !! key = Some p
     ∨ items (cache s') = ∅ ∧ orderedItems (cache s') = []).
Proof.
  intros Hwf Hk Hp Hlen.
  destruct (putItem_wf fuel key p s Hwf Hk Hp Hlen) as (s' & Hrun & Hd & Hs & Hwf').
  exists s'. do 4 (split; [done|]).
  pose proof (wf_inserted s key p Hwf Hk Hp) as Hwf1.
  destruct (drained_frame _ _ Hwf1 Hd) as (Hh & _ & _ & _ & _ & ev & Hev).
  destruct (orderedItems (cache s')) as [|x l'] eqn:Hl'.
  - right. split; [by apply wf_empty|done].
  - left. simpl in Hev. injection Hev as <- _.
    by apply (front_indexed key p s s' l').
Qed.

(** The new entry stays when sizes are not negative and it fits the
    capacity. *)
Lemma putItem_keeps fuel key p s :
  inv s → items (cache s) !! key = None →
  (∀ k, items (cache s) !! k ≠ Some p) →
  (length (orderedItems (cache s)) < fuel)%nat →
  0 <= Size (heap s p) <= maxSize (cache s) →
  currentSize (cache s) + Size (heap s p) <= GoInt.max_int →
  ∃ s', putItem fuel key p s = Done s' ∧ inv s' ∧ settled s' ∧
    items (cache s') !! key = Some p.
Proof.
  intros Hinv Hk Hp Hlen Hsz Hfit.
  destruct (putItem_wf fuel key p s (inv_wf s Hinv) Hk Hp Hlen)
    as (s' & Hrun & Hd & Hs & Hwf').
  destruct (inv_inserted s key p Hinv Hk Hp) as [Hinv1 _]; [lia|done|].
  destruct (drained_inv _ _ Hinv1 Hd) as [Hinv' _].
  exists s'. do 3 (split; [done|]).
  destruct (drained_frame _ _ (inv_wf _ Hinv1) Hd) as (Hh & _).
  destruct (drained_keeps_front _ _ Hd (nextElem s) p (orderedItems (cache s)) Hinv1)
    as [l' Hl']; [done| |].
  { simpl. unfold store. rewrite decide_True by done. simpl. lia. }
  by apply (front_indexed key p s s' l').
Qed.

(** ** Replace *)

Lemma Replace_absent fuel key p s :
  items (cache s) !! key = None → Replace fuel key p s = Put fuel key p s.
Proof. intros Hk. unfold Replace, Put. by rewrite Hk. Qed.

Lemma Replace_present fuel key p q s :
  wf s → items (cache s) !! key = Some q →
  ∃ e, (e, q) ∈ orderedItems (cache s) ∧
    elementListItem (heap s q) = Some e ∧
    evictElement q s = Done (evicted key e q s) ∧
    Replace fuel key p s =
      (s2 ← putItem fuel key p (evicted key e q s); Done (None, s2)).
Proof.
  intros Hwf Hk. destruct (wf_held s key q Hwf Hk) as (Hqk & e & He & Hin).
  exists e. do 2 (split; [done|]).
  pose proof (evictElement_linked s q key e Hqk He) as Hev.
  split; [done|]. unfold Replace. by rewrite Hk, Hev.
Qed.

(** C6, amended.  On a state whose index and recency list are in
    one-to-one correspondence, each item referring back to its own entry:
    [Replace] of a present key is the eviction of the entry of that key, hook
    included, followed by the insertion of the new item; [Replace] of an
    absent key is [Put].  Given a new item that no other key holds, it returns
    a nil error, and the key then maps to the new item unless the eviction
    pass has emptied the cache; the key does map to the new item when sizes
    are not negative and the new item fits the capacity. *)
Theorem Replace_spec fuel key p s :
  wf s →
  (∀ q, items (cache s) !! key = Some q →
     ∃ e, (e, q) ∈ orderedItems (cache s) ∧
       evictElement q s = Done (evicted key e q s) ∧
       world (evicted key e q s)
         = match onevict (cache s) with
           | Some f => f key q (world s)
           | None => world s
           end ∧
       items (cache (evicted key e q s)) !! key = None ∧
       Replace fuel key p s =
         (s2 ← putItem fuel key p (evicted key e q s); Done (None, s2))) ∧
  (items (cache s) !! key = None → Replace fuel key p s = Put fuel key p s) ∧
  (unshared key p s → (length (orderedItems (cache s)) < fuel)%nat →
     ∃ s', Replace fuel key p s = Done (None, s') ∧
       (items (cache s') !! key = Some p
        ∨ items (cache s') = ∅ ∧ orderedItems (cache s') = []) ∧
       (inv s → 0 <= Size (heap s p) <= maxSize (cache s) →
        currentSize (cache s) + Size (heap s p) <= GoInt.max_int →
        items (cache s') !! key = Some p)).
Proof.
  intros Hwf. split; [|split].
  - intros q Hk. destruct (Replace_present fuel key p q s Hwf Hk) as (e & Hin & _ & Hev & Hr).
    exists e. do 3 (split; [done|]). split; [|done]. simpl. apply lookup_delete_eq.
  - apply Replace_absent.
  - intros Hun Hlen. destruct (items (cache s) !! key) as [q|] eqn:Hk.
    + destruct (Replace_present fuel key p q s Hwf Hk) as (e & Hin & He0 & Hev & ->).
      set (s1 := evicted key e q s).
      assert (wf s1) as Hwf1 by (by apply wf_evicted).
      assert (items (cache s1) !! key = None) as Hk1 by apply lookup_delete_eq.
      assert (∀ k, items (cache s1) !! k ≠ Some p) as Hp1.
      { intros k Hkp. simpl in Hkp. apply lookup_delete_Some in Hkp as [Hne Hkp].
        by apply Hne, eq_sym, (Hun k p). }
      assert (length (orderedItems (cache s1)) < fuel)%nat as Hlen1.
      { pose proof (length_evicted key e q s). unfold s1. lia. }
      destruct (putItem_outcome fuel key p s1 Hwf1 Hk1 Hp1 Hlen1)
        as (s' & Hrun & Hwf' & Hs & Hd & Hor).
      exists s'. rewrite Hrun. split; [done|]. split; [done|].
      intros Hinv Hsz Hfit.
      destruct (inv_evicted s key e q Hinv Hk He0) as (Hinv1 & Hc1 & Hq).
      destruct (putItem_keeps fuel key p s1 Hinv1 Hk1 Hp1 Hlen1)
        as (s'' & Hrun' & _ & _ & Hkp); [done|unfold s1; rewrite Hc1; simpl; lia|].
      rewrite Hrun in Hrun'. by injection Hrun' as ->.
    + assert (∀ k, items (cache s) !! k ≠ Some p) as Hp.
      { intros k Hkp. rewrite (Hun k p Hkp eq_refl) in Hkp. congruence. }
      unfold Replace. rewrite Hk. simpl.
      destruct (putItem_outcome fuel key p s Hwf Hk Hp Hlen)
        as (s' & Hrun & Hwf' & Hs & Hd & Hor).
      exists s'. rewrite Hrun. split; [done|]. split; [done|].
      intros Hinv Hsz Hfit.
      destruct (putItem_keeps fuel key p s Hinv Hk Hp Hlen)
        as (s'' & Hrun' & _ & _ & Hkp); [done|done|].
      rewrite Hrun in Hrun'. by injection Hrun' as ->.
Qed.

(** ** EvictIf *)

Lemma hooked_step s key e p keys :
  wf s → items (cache s) !! key = Some p → key ∉ keys →
  hooked (evicted key e p s) keys = hooked s (key :: keys).
Proof.
  intros Hwf Hk Hnin. unfold hooked. simpl. rewrite Hk.
  generalize (match onevict (cache s) with
              | Some f => f key p (world s)
              | None => world s
              end).
  induction keys as [|k keys IH]; intros w; [done|]. simpl.
  apply not_elem_of_cons in Hnin as [Hne Hnin].
  rewrite lookup_delete_ne by done. by apply IH.
Qed.

Lemma evictIfLoop_spec predicate order : ∀ s,
  wf s → NoDup order →
  ∃ s', evictIfLoop predicate order s = Done s' ∧ wf s' ∧ heap s' = heap s ∧
    (∀ k, items (cache s') !! k
          = if decide (predicate k = true ∧ k ∈ order) then None
            else items (cache s) !! k) ∧
    world s' = hooked s (filter (fun k => predicate k = true) order).
Proof.
  induction order as [|key order IH]; intros s Hwf Hnd; simpl.
  { exists s. do 3 (split; [done|]). split; [|done].
    intros k. rewrite decide_False; [done|]. intros [_ Hin]. by apply elem_of_nil in Hin. }
  apply NoDup_cons in Hnd as [Hnin Hnd].
  unfold evictIfStep.
  destruct (items (cache s) !! key) as [p|] eqn:Hk;
    [destruct (predicate key) eqn:Hp|].
  - destruct (wf_held s key p Hwf Hk) as (Hpk & e & He & Hin).
    rewrite (evictElement_linked s p key e Hpk He). simpl.
    destruct (IH (evicted key e p s)) as (s' & -> & Hwf' & Hh & Hit & Hw);
      [by apply wf_evicted|done|].
    exists s'. do 3 (split; [done|]). split.
    + intros k. rewrite Hit. simpl.
      destruct (decide (k = key)) as [->|Hne].
      * rewrite lookup_delete_eq. rewrite (decide_True (P := _ ∧ key ∈ key :: order));
          [by destruct (decide _)|]. split; [done|left].
      * rewrite lookup_delete_ne by done.
        destruct (decide (predicate k = true ∧ k ∈ order)) as [[Hpk' Hin']|Hn].
        -- rewrite decide_True; [done|]. split; [done|by right].
        -- rewrite decide_False; [done|]. intros [Hpk' Hin'].
           apply elem_of_cons in Hin' as [->|Hin']; [done|]. by apply Hn.
    + rewrite Hw. rewrite filter_cons_True by done.
      apply hooked_step; [done|done|].
      intros Hx. apply list_elem_of_filter in Hx as [_ Hx]. by apply Hnin.
  - simpl. destruct (IH s Hwf Hnd) as (s' & -> & Hwf' & Hh & Hit & Hw).
    exists s'. do 3 (split; [done|]). split.
    + intros k. rewrite Hit.
      destruct (decide (predicate k = true ∧ k ∈ order)) as [[Hpk' Hin']|Hn].
      * rewrite decide_True; [done|]. split; [done|by right].
      * rewrite decide_False; [done|]. intros [Hpk' Hin'].
        apply elem_of_cons in Hin' as [->|Hin']; [congruence|]. by apply Hn.
    + rewrite Hw. rewrite filter_cons_False; [done|]. by rewrite Hp.
  - simpl. destruct (IH s Hwf Hnd) as (s' & -> & Hwf' & Hh & Hit & Hw).
    exists s'. do 3 (split; [done|]). split.
    + intros k. rewrite Hit.
      destruct (decide (predicate k = true ∧ k ∈ order)) as [[Hpk' Hin']|Hn].
      * rewrite decide_True; [done|]. split; [done|by right].
      * destruct (decide (predicate k = true ∧ k ∈ key :: order)) as [[Hpk' Hin']|Hn'];
          [|done].
        apply elem_of_cons in Hin' as [->|Hin']; [done|]. exfalso. by apply Hn.
    + rewrite Hw. unfold hooked.
      destruct (decide (predicate key = true)) as [Hp|Hp].
      * rewrite filter_cons_True by done. simpl. rewrite Hk.
        by destruct (onevict (cache s)).
      * by rewrite filter_cons_False.
Qed.

(** C8, amended.  On a state whose index and recency list are in one-to-one
    correspondence, each item referring back to its own entry, whatever the
    order in which the range
    visits the keys of the index, [EvictIf] leaves exactly the entries whose
    key does not satisfy the predicate, has called the hook once for each of
    the others, in the order of the visit, and returns nil; it returns nil
    whenever it returns. *)
Theorem EvictIf_exact order predicate s :
  wf s → order ≡ₚ (map_to_list (items (cache s))).*1 →
  ∃ s', EvictIf order predicate s = Done (None, s') ∧
    items (cache s') = filter (fun kp => predicate kp.1 = false) (items (cache s)) ∧
    (∀ k, is_Some (items (cache s') !! k)
          ↔ is_Some (items (cache s) !! k) ∧ predicate k = false) ∧
    world s' = hooked s (filter (fun k => predicate k = true) order) ∧
    wf s' ∧
    ∀ order' r, EvictIf order' predicate s = Done r → r.1 = None.
Proof.
  intros Hwf Hperm.
  assert (NoDup order) as Hnd.
  { rewrite Hperm. apply NoDup_fst_map_to_list. }
  assert (∀ k p, items (cache s) !! k = Some p → k ∈ order) as Hall.
  { intros k p Hk. rewrite Hperm. apply list_elem_of_fmap. exists (k, p).
    split; [done|]. by apply elem_of_map_to_list. }
  destruct (evictIfLoop_spec predicate order s Hwf Hnd) as (s' & Hrun & Hwf' & Hh & Hit & Hw).
  assert (∀ k, items (cache s') !! k
               = if predicate k then None else items (cache s) !! k) as Hit'.
  { intros k. rewrite Hit. destruct (predicate k) eqn:Hp.
    - destruct (items (cache s) !! k) as [p|] eqn:Hk; [|by destruct (decide _)].
      rewrite decide_True; [done|]. split; [done|]. by apply (Hall k p).
    - rewrite decide_False; [done|]. by intros [? _]. }
  exists s'. unfold EvictIf. rewrite Hrun. simpl. split; [done|]. split; [|split].
  - apply map_eq. intros k. rewrite Hit'. symmetry.
    destruct (predicate k) eqn:Hp.
    + apply map_lookup_filter_None. destruct (items (cache s) !! k) as [p|]; [right|by left].
      intros x _. simpl. congruence.
    + destruct (items (cache s) !! k) as [p|] eqn:Hk.
      * by apply map_lookup_filter_Some.
      * apply map_lookup_filter_None. by left.
  - intros k. rewrite Hit'. destruct (predicate k).
    + split; [by intros [? ?]|by intros [_ ?]].
    + split; [by intros ?|by intros [? _]].
  - do 2 (split; [done|]).
    intros order' r. destruct (evictIfLoop predicate order' s); simpl; [|done..].
    by intros [= <-].
Qed.

(** ** The capacity bound *)

Lemma putItem_bounded fuel key p s s' :
  putItem fuel key p s = Done s' → bounded s'.
Proof.
  rewrite putItem_inserted. intros Hrun.
  by apply settled_bounded, (evictAsNeeded_settled fuel _ _ Hrun).
Qed.

Lemma evicted_bounded s key e p :
  inv s → bounded s → items (cache s) !! key = Some p →
  elementListItem (heap s p) = Some e →
  inv (evicted key e p s) ∧ bounded (evicted key e p s).
Proof.
  intros Hinv Hb Hk He.
  destruct (inv_evicted s key e p Hinv Hk He) as (Hinv' & Hc & Hp).
  split; [done|]. destruct Hb as [Hb|Hb]; [left|right].
  - rewrite Hc. simpl. lia.
  - simpl. by rewrite Hb.
Qed.

Lemma evictIfLoop_bounded predicate order : ∀ s s',
  inv s → bounded s → evictIfLoop predicate order s = Done s' →
  inv s' ∧ bounded s'.
Proof.
  induction order as [|key order IH]; intros s s' Hinv Hb; simpl.
  { by intros [= <-]. }
  unfold evictIfStep.
  destruct (items (cache s) !! key) as [p|] eqn:Hk; [destruct (predicate key)|];
    simpl; try by apply IH.
  destruct (wf_held s key p (inv_wf s Hinv) Hk) as (Hpk & e & He & Hin).
  rewrite (evictElement_linked s p key e Hpk He). simpl.
  destruct (evicted_bounded s key e p Hinv Hb Hk He) as [Hinv1 Hb1].
  by apply IH.
Qed.

Lemma MakeRoom_bounded fuel size s s' :
  capacity_ok s → 0 <= size <= GoInt.max_int →
  MakeRoom fuel size s = Done s' →
  bounded s' ∧ maxSize (cache s') = maxSize (cache s).
Proof.
  intros Hcap Hsize. unfold MakeRoom.
  destruct (evictAsNeeded fuel _) as [s2| |] eqn:Hrun; [|done..]. simpl.
  intros [= <-]. simpl.
  destruct (evictAsNeeded_settled fuel _ _ Hrun) as [Hs Hm]. simpl in Hm.
  assert (GoInt.sub (maxSize (cache s)) size = maxSize (cache s) - size) as Hsub.
  { apply wrap_small.
    unfold capacity_ok, GoInt.in_range, GoInt.min_int, GoInt.max_int in *. lia. }
  assert (GoInt.add (maxSize (cache s2)) size = maxSize (cache s)) as Hadd.
  { rewrite Hm, Hsub. unfold GoInt.add. replace (maxSize (cache s) - size + size)
      with (maxSize (cache s)) by lia.
    apply wrap_small.
    unfold capacity_ok, GoInt.in_range, GoInt.min_int, GoInt.max_int in *. lia. }
  split; [|exact Hadd].
  apply settled_bounded in Hs. unfold bounded in *. simpl.
  destruct Hs as [Hs|Hs]; [left|by right]. rewrite Hadd. lia.
Qed.

(** C3.  On a state that satisfies the invariants of the data model, with
    sizes that are not negative and the capacity respected, whatever state a
    call of Put, Get, Replace, Evict, EvictIf or MakeRoom (of an amount that is
    not negative) returns has [currentSize ≤ maxSize] or an empty recency
    list.  And the call does return, when it stores no object that another
    key holds and has fuel for the eviction pass. *)
Theorem capacity_bound fuel o s :
  inv s → capacity_ok s → bounded s →
  match o with
  | OpMakeRoom size => 0 <= size <= GoInt.max_int
  | _ => True
  end →
  (∀ s', step fuel o s = Done s' → bounded s') ∧
  (op_ok o s → (length (orderedItems (cache s)) < fuel)%nat →
   ∃ s', step fuel o s = Done s').
Proof.
  intros Hinv Hcap Hb Hsize. split.
  2:{ intros Hok Hlen.
      destruct (step_good fuel o s (inv_good s Hinv) Hok Hlen) as (s' & Hstep & _).
      by exists s'. }
  intros s'. destruct o as [key p|key|key p|key|order predicate|size]; simpl.
  - unfold Put. destruct (items (cache s) !! key); simpl; [by intros [= <-]|].
    destruct (putItem fuel key p s) as [s1| |] eqn:Hrun; simpl; [|done..].
    intros [= <-]. by eapply putItem_bounded.
  - destruct (items (cache s) !! key) as [q|] eqn:Hk.
    + destruct (Get_hit s key q (inv_wf s Hinv) Hk) as (e & Hin & ->). simpl.
      intros [= <-]. destruct Hb as [Hb|Hb]; [by left|].
      rewrite Hb in Hin. by apply elem_of_nil in Hin.
    + unfold Get. rewrite Hk. unfold produceItem.
      destruct (producer (cache s)) as [f|]; simpl; [|by intros [= <-]].
      destruct (f key (world s)) as [[p|] w]; simpl; [|by intros [= <-]].
      destruct (putItem fuel key p _) as [s1| |] eqn:Hrun; simpl; [|done..].
      intros [= <-]. by eapply putItem_bounded.
  - unfold Replace.
    destruct (match items (cache s) !! key with
              | Some item => evictElement item s
              | None => Done s
              end) as [s1| |]; simpl; [|done..].
    destruct (putItem fuel key p s1) as [s2| |] eqn:Hrun; simpl; [|done..].
    intros [= <-]. by eapply putItem_bounded.
  - unfold Evict. destruct (items (cache s) !! key) as [q|] eqn:Hk; simpl;
      [|by intros [= <-]].
    destruct (wf_held s key q (inv_wf s Hinv) Hk) as (Hqk & e & He & Hin).
    rewrite (evictElement_linked s q key e Hqk He). simpl. intros [= <-].
    by apply evicted_bounded.
  - unfold EvictIf.
    destruct (evictIfLoop predicate order s) as [s1| |] eqn:Hrun; simpl; [|done..].
    intros [= <-]. by apply (evictIfLoop_bounded predicate order s s1).
  - intros Hrun. by apply (MakeRoom_bounded fuel size s s' Hcap Hsize).
Qed.

(** ** MakeRoom *)

Lemma MakeRoom_inv fuel amount s :
  inv s → capacity_ok s → 0 <= amount <= maxSize (cache s) →
  (length (orderedItems (cache s)) ≤ fuel)%nat →
  ∃ s' ev, MakeRoom fuel amount s = Done s' ∧
    amount <= EmptySpace s' ∧ MaxSize s' = MaxSize s ∧
    orderedItems (cache s) = orderedItems (cache s') ++ ev ∧
    (∀ k q, items (cache s') !! k = Some q ↔
            items (cache s) !! k = Some q ∧ q ∉ ev.*2) ∧
    world s' = notified s ev ∧
    (currentSize (cache s) <= maxSize (cache s) - amount → ev = []) ∧
    inv s'.
Proof.
  intros Hinv Hcap Hamount Hlen. unfold MakeRoom.
  assert (GoInt.sub (maxSize (cache s)) amount = maxSize (cache s) - amount) as Hsub.
  { apply wrap_small.
    unfold capacity_ok, GoInt.in_range, GoInt.min_int, GoInt.max_int in *. lia. }
  set (s1 := set_cache (set_maxSize _ (cache s)) s).
  assert (inv s1) as Hinv1 by (by apply (inv_ext s)).
  assert (maxSize (cache s1) = maxSize (cache s) - amount) as Hm1 by exact Hsub.
  destruct (evictAsNeeded_wf fuel s1 (inv_wf s1 Hinv1) Hlen) as (s2 & Hrun & Hd & Hs).
  rewrite Hrun. simpl.
  destruct (drained_inv s1 s2 Hinv1 Hd) as [Hinv2 Hc2].
  destruct (drained_frame s1 s2 (inv_wf s1 Hinv1) Hd) as (_ & _ & Hm2 & _).
  destruct (drained_spec s1 s2 (inv_wf s1 Hinv1) Hd) as (ev & Hev & Hw & Hit).
  assert (GoInt.add (maxSize (cache s2)) amount = maxSize (cache s)) as Hadd.
  { rewrite Hm2, Hm1. unfold GoInt.add.
    replace (maxSize (cache s) - amount + amount) with (maxSize (cache s)) by lia.
    apply wrap_small.
    unfold capacity_ok, GoInt.in_range, GoInt.min_int, GoInt.max_int in *. lia. }
  pose proof (inv_cur_nonneg s2 Hinv2) as Hc0.
  assert (currentSize (cache s2) <= maxSize (cache s) - amount) as Hfree.
  { apply settled_bounded in Hs as [Hs|Hs]; [lia|].
    destruct (inv_empty s2 Hinv2 Hs) as [_ ->]. lia. }
  eexists. exists ev. split; [done|].
  split; [|split; [exact Hadd|]].
  { unfold EmptySpace. simpl. rewrite Hadd. unfold GoInt.sub.
    rewrite wrap_small; [lia|].
    unfold capacity_ok, GoInt.in_range, GoInt.min_int, GoInt.max_int in *. lia. }
  do 3 (split; [done|]). split; [|by apply (inv_ext s2)].
  intros Hroom.
  assert (evictAsNeeded fuel s1 = Done s1) as Hstop.
  { destruct fuel; simpl; case_bool_decide as Hc; try done;
      destruct Hc as [Hc _]; simpl in Hc; rewrite Hsub in Hc; lia. }
  rewrite Hstop in Hrun. injection Hrun as <-.
  simpl in Hev. apply (f_equal length) in Hev. rewrite length_app in Hev.
  destruct ev; [done|simpl in Hev; lia].
Qed.

(** ** An item larger than the capacity *)

Lemma notified_inserted key p s l :
  (∀ x, x ∈ l → x.2 ≠ p) → notified (inserted key p s) l = notified s l.
Proof.
  intros Hl. unfold notified. simpl. induction l as [|x l IH]; [done|]. simpl.
  rewrite IH by (intros y Hy; apply Hl; by right).
  unfold store. rewrite decide_False; [done|]. apply Hl. left.
Qed.

Lemma notified_cons s x l :
  notified s (x :: l)
  = match onevict (cache s), elementKey (heap s x.2) with
    | Some f, Some key => f key x.2 (notified s l)
    | _, _ => notified s l
    end.
Proof. reflexivity. Qed.

Lemma notified_no_hook s l : onevict (cache s) = None → notified s l = world s.
Proof.
  intros Ho. unfold notified. rewrite Ho. by induction l.
Qed.

Lemma inserted_elementKey key p s :
  elementKey (heap (inserted key p s) p) = Some key.
Proof. simpl. unfold store. by rewrite decide_True. Qed.

Lemma oversized_putItem fuel key p s :
  inv s → capacity_ok s → items (cache s) !! key = None →
  (∀ k, items (cache s) !! k ≠ Some p) →
  maxSize (cache s) < Size (heap s p) →
  currentSize (cache s) + Size (heap s p) <= GoInt.max_int →
  (length (orderedItems (cache s)) < fuel)%nat →
  ∃ s', putItem fuel key p s = Done s' ∧
    items (cache s') = ∅ ∧ orderedItems (cache s') = [] ∧
    currentSize (cache s') = 0 ∧
    world s' = match onevict (cache s) with
               | Some f => f key p (notified s (orderedItems (cache s)))
               | None => world s
               end.
Proof.
  intros Hinv Hcap Hk Hp Hbig Hfit Hlen.
  pose proof (inv_wf s Hinv) as Hwf.
  destruct (putItem_wf fuel key p s Hwf Hk Hp Hlen) as (s' & Hrun & Hd & Hs & Hwf').
  destruct (inv_inserted s key p Hinv Hk Hp) as [Hinv1 _];
    [unfold capacity_ok in Hcap; lia|done|].
  destruct (drained_inv _ _ Hinv1 Hd) as [Hinv' _].
  destruct (drained_frame _ _ (inv_wf _ Hinv1) Hd) as (Hh & _ & Hm & _).
  destruct (drained_spec _ _ (inv_wf _ Hinv1) Hd) as (ev & Hev & Hw & _).
  assert (orderedItems (cache s') = []) as Hl'.
  { destruct (orderedItems (cache s')) as [|x l'] eqn:Hl'; [done|exfalso].
    simpl in Hev. injection Hev as <- _.
    pose proof (front_indexed key p s s' l' Hwf' Hh Hl') as Hkp.
    pose proof (sumSizes_member (heap s') _ key p (inv_nonneg s' Hinv') Hkp) as Hsz.
    pose proof (inv_exact s' Hinv') as Hex. unfold exact in Hex.
    assert (Size (heap s' p) = Size (heap s p)) as Hsize.
    { rewrite Hh. simpl. unfold store. by rewrite decide_True. }
    apply Hs. rewrite Hl'. simpl in Hm. simpl. split; lia. }
  destruct (inv_empty s' Hinv' Hl') as [Hi' Hc'].
  exists s'. do 4 (split; [done|]).
  rewrite Hl' in Hev. simpl in Hev. rewrite Hw, <- Hev.
  rewrite notified_cons. cbn [snd]. rewrite inserted_elementKey.
  rewrite notified_inserted.
  - change (onevict (cache (inserted key p s))) with (onevict (cache s)).
    destruct (onevict (cache s)) eqn:Ho; [done|]. by apply notified_no_hook.
  - intros [e q] Hx Heq. simpl in Heq. subst q.
    destruct (wf_listed s e p Hwf Hx) as (_ & k & _ & Hkp). by apply (Hp k).
Qed.

Lemma Get_miss fuel key f p w s :
  items (cache s) !! key = None → producer (cache s) = Some f →
  f key (world s) = (Some p, w) →
  Get fuel key s = (s' ← putItem fuel key p (set_world w s); Done (Some p, s')).
Proof.
  intros Hk Hf Hfk. unfold Get, produceItem. by rewrite Hk, Hf, Hfk.
Qed.

(** C4, amended.  On a state that satisfies the invariants, storing under an
    absent key an item larger than the capacity (one that no key holds, and
    whose size added to [currentSize] is an [int]) evicts every entry of the
    cache and then the item itself: the hook is called for the entries the
    cache held, from the back of the recency list, and last for the new item;
    afterwards no key is present and [currentSize] is 0.  This holds for
    [Put] and for a [Get] whose producer makes the item. *)
Theorem oversized_item fuel key p s :
  inv s → capacity_ok s → items (cache s) !! key = None →
  unshared key p s →
  maxSize (cache s) < Size (heap s p) →
  currentSize (cache s) + Size (heap s p) <= GoInt.max_int →
  (length (orderedItems (cache s)) < fuel)%nat →
  (∃ s', Put fuel key p s = Done (None, s') ∧
     Has key s' = false ∧ items (cache s') = ∅ ∧ orderedItems (cache s') = [] ∧
     currentSize (cache s') = 0 ∧
     world s' = match onevict (cache s) with
                | Some f => f key p (notified s (orderedItems (cache s)))
                | None => world s
                end) ∧
  (∀ f w, producer (cache s) = Some f → f key (world s) = (Some p, w) →
   ∃ s', Get fuel key s = Done (Some p, s') ∧
     Has key s' = false ∧ items (cache s') = ∅ ∧ orderedItems (cache s') = [] ∧
     currentSize (cache s') = 0 ∧
     world s' = match onevict (cache s) with
                | Some g =>
                    g key p (notified (set_world w s) (orderedItems (cache s)))
                | None => w
                end).
Proof.
  intros Hinv Hcap Hk Hun Hbig Hfit Hlen.
  assert (∀ k, items (cache s) !! k ≠ Some p) as Hp.
  { intros k Hkp. rewrite (Hun k p Hkp eq_refl) in Hkp. congruence. }
  split.
  - destruct (oversized_putItem fuel key p s Hinv Hcap Hk Hp Hbig Hfit Hlen)
      as (s' & Hrun & Hi & Hl & Hc & Hw).
    exists s'. unfold Put. rewrite Hk, Hrun. simpl. split; [done|].
    split; [|done]. unfold Has. rewrite Hi, lookup_empty.
    apply bool_decide_eq_false. by intros [? ?].
  - intros f w Hf Hfk.
    destruct (oversized_putItem fuel key p (set_world w s)) as (s' & Hrun & Hi & Hl & Hc & Hw);
      [by apply (inv_ext s)|done..|].
    exists s'. rewrite (Get_miss fuel key f p w s Hk Hf Hfk), Hrun. simpl.
    split; [done|]. split; [|done]. unfold Has. rewrite Hi, lookup_empty.
    apply bool_decide_eq_false. by intros [? ?].
Qed.

(** ** The loop of the eviction pass *)

Lemma evictAsNeeded_step fuel s back s1 :
  maxSize (cache s) < currentSize (cache s) →
  Back (orderedItems (cache s)) = Some back →
  evictElement back.2 s = Done s1 →
  evictAsNeeded (S fuel) s = evictAsNeeded fuel s1.
Proof.
  intros Hc Hb He. simpl. rewrite bool_decide_eq_true_2.
  - rewrite Hb. simpl. by rewrite He.
  - split; [done|]. unfold Back in Hb.
    destruct (orderedItems (cache s)); [done|simpl; lia].
Qed.

(** An iteration that leaves the state as it is repeats for ever. *)
Lemma evictAsNeeded_stuck s back :
  maxSize (cache s) < currentSize (cache s) →
  Back (orderedItems (cache s)) = Some back →
  evictElement back.2 s = Done s →
  ∀ fuel, evictAsNeeded fuel s = OutOfFuel.
Proof.
  intros Hc Hb He fuel. induction fuel as [|fuel IH].
  - simpl. rewrite bool_decide_eq_true_2; [done|]. split; [done|].
    unfold Back in Hb. destruct (orderedItems (cache s)); [done|simpl; lia].
  - by rewrite (evictAsNeeded_step fuel s back s).
Qed.

(** * Further properties of the package *)

(** ** Evict *)

Lemma Remove_by_item s e p :
  wf s → (e, p) ∈ orderedItems (cache s) →
  Remove e (orderedItems (cache s))
  = filter (fun x => x.2 ≠ p) (orderedItems (cache s)).
Proof.
  intros Hwf Hin.
  assert (Forall (fun x => x.1 ≠ e ↔ x.2 ≠ p) (orderedItems (cache s))) as Hall.
  { rewrite Forall_forall. intros [e' p'] Hx. simpl. split.
    - intros Hne ->. destruct (wf_listed s e p Hwf Hin) as [He _].
      destruct (wf_listed s e' p Hwf Hx) as [He' _]. congruence.
    - intros Hne ->. apply Hne. eapply fst_inj_NoDup; [apply Hwf|done..]. }
  clear Hin. unfold Remove. induction Hall as [|x l Hx _ IH]; [done|].
  destruct (decide (x.1 ≠ e)) as [Hd|Hd].
  - rewrite (filter_cons_True (fun x => x.1 ≠ e)) by done.
    rewrite (filter_cons_True (fun x => x.2 ≠ p)) by tauto. by rewrite IH.
  - rewrite (filter_cons_False (fun x => x.1 ≠ e)) by done.
    rewrite (filter_cons_False (fun x => x.2 ≠ p)) by tauto. by rewrite IH.
Qed.

(** [Evict] of a key that is present returns its item and removes the entry
    of that key and no other: the index loses the key, the recency list loses
    the item and keeps the order of the rest, [currentSize] loses the size,
    and the hook is called once, with the key and the item.  [Evict] of a key
    that is absent returns nil and changes nothing. *)
Theorem Evict_spec key s :
  wf s →
  (∀ p, items (cache s) !! key = Some p →
     ∃ s', Evict key s = Done (Some p, s') ∧
       items (cache s') = delete key (items (cache s)) ∧
       orderedItems (cache s')
         = filter (fun x => x.2 ≠ p) (orderedItems (cache s)) ∧
       currentSize (cache s') = GoInt.sub (currentSize (cache s)) (Size (heap s p)) ∧
       maxSize (cache s') = maxSize (cache s) ∧
       world s' = match onevict (cache s) with
                  | Some f => f key p (world s)
                  | None => world s
                  end ∧
       Has key s' = false ∧ wf s') ∧
  (items (cache s) !! key = None → Evict key s = Done (None, s)).
Proof.
  intros Hwf. split.
  - intros p Hk. destruct (wf_held s key p Hwf Hk) as (Hpk & e & He & Hin).
    exists (evicted key e p s). unfold Evict.
    rewrite Hk, (evictElement_linked s p key e Hpk He). simpl.
    split; [done|]. split; [done|]. split; [by apply Remove_by_item|].
    do 3 (split; [done|]). split; [|by apply wf_evicted].
    unfold Has. simpl. rewrite lookup_delete_eq.
    apply bool_decide_eq_false. by intros [? ?].
  - intros Hk. unfold Evict. by rewrite Hk.
Qed.

(** ** Put, then Evict *)

(** A [Put] that leaves the capacity respected evicts nothing, whatever the
    fuel, and [Evict] of the same key then gives back the index, the recency
    list and [currentSize] that [Put] had found. *)
Theorem Put_Evict_roundtrip fuel key p s :
  wf s → GoInt.in_range (currentSize (cache s)) →
  items (cache s) !! key = None →
  GoInt.add (currentSize (cache s)) (Size (heap s p)) <= maxSize (cache s) →
  ∃ s1 s2, Put fuel key p s = Done (None, s1) ∧
    items (cache s1) = <[key := p]> (items (cache s)) ∧
    Evict key s1 = Done (Some p, s2) ∧
    items (cache s2) = items (cache s) ∧
    orderedItems (cache s2) = orderedItems (cache s) ∧
    currentSize (cache s2) = currentSize (cache s) ∧
    maxSize (cache s2) = maxSize (cache s).
Proof.
  intros Hwf Hcur Hk Hfit.
  assert (evictAsNeeded fuel (inserted key p s) = Done (inserted key p s)) as Hrun.
  { destruct fuel; simpl; case_bool_decide as Hc; try done; destruct Hc; lia. }
  exists (inserted key p s). eexists. split.
  { unfold Put. by rewrite Hk, putItem_inserted, Hrun. }
  split; [done|]. unfold Evict. simpl. rewrite lookup_insert_eq.
  rewrite (evictElement_linked _ p key (nextElem s)); simpl; unfold store;
    rewrite ?decide_True by done; try done.
  split; [done|]. simpl. split; [by apply delete_insert_id|]. split; [|split; [|done]].
  - unfold Remove. rewrite filter_cons_False by (simpl; tauto).
    apply Remove_absent. intros Hin.
    apply list_elem_of_fmap in Hin as ([e q] & He & Hin). simpl in He. subst e.
    pose proof (wf_alloc s Hwf) as Ha. rewrite Forall_forall in Ha.
    specialize (Ha _ Hin). simpl in Ha. lia.
  - unfold store. rewrite decide_True by done. simpl.
    unfold GoInt.sub, GoInt.add. rewrite wrap_sub_l.
    replace (currentSize (cache s) + Size (heap s p) - Size (heap s p))
      with (currentSize (cache s)) by lia.
    by apply wrap_small.
Qed.

(** ** EmptySpace and MaxSize *)

(** On a state that satisfies the invariants and respects the capacity,
    [EmptySpace()] and [currentSize] add up to the capacity, and
    [EmptySpace()] lies between 0 and [MaxSize()]. *)
Theorem EmptySpace_bounds s :
  inv s → capacity_ok s → bounded s →
  EmptySpace s + currentSize (cache s) = MaxSize s ∧
  0 <= EmptySpace s <= MaxSize s.
Proof.
  intros Hinv Hcap Hb. pose proof (inv_cur_nonneg s Hinv) as Hc0.
  assert (currentSize (cache s) <= maxSize (cache s)) as Hle.
  { destruct Hb as [Hb|Hb]; [done|].
    destruct (inv_empty s Hinv Hb) as [_ ->]. unfold capacity_ok in Hcap. lia. }
  unfold EmptySpace, MaxSize, GoInt.sub. rewrite wrap_small; [lia|].
  unfold capacity_ok, GoInt.in_range, GoInt.min_int, GoInt.max_int in *. lia.
Qed.

Lemma evictIfLoop_maxSize predicate order : ∀ s s',
  evictIfLoop predicate order s = Done s' →
  maxSize (cache s') = maxSize (cache s).
Proof.
  induction order as [|key order IH]; intros s s'; simpl; [by intros [= <-]|].
  unfold evictIfStep.
  destruct (items (cache s) !! key) as [p|]; [destruct (predicate key)|];
    simpl; try apply IH.
  destruct (evictElement p s) as [s1| |] eqn:He; simpl; [|done..].
  intros Hrun. rewrite (IH _ _ Hrun). by eapply evictElement_maxSize.
Qed.

Lemma putItem_maxSize fuel key p s s' :
  putItem fuel key p s = Done s' → maxSize (cache s') = maxSize (cache s).
Proof.
  rewrite putItem_inserted. intros Hrun.
  by destruct (evictAsNeeded_settled fuel _ _ Hrun) as [_ ->].
Qed.

Lemma step_maxSize fuel o s s' :
  GoInt.in_range (maxSize (cache s)) →
  step fuel o s = Done s' → maxSize (cache s') = maxSize (cache s).
Proof.
  intros Hr. destruct o as [key p|key|key p|key|order predicate|size]; simpl.
  - unfold Put. destruct (items (cache s) !! key); simpl; [by intros [= <-]|].
    destruct (putItem fuel key p s) as [s1| |] eqn:Hrun; simpl; [|done..].
    intros [= <-]. by eapply putItem_maxSize.
  - unfold Get. destruct (items (cache s) !! key) as [q|].
    + destruct (elementListItem (heap s q)); simpl; [|done]. by intros [= <-].
    + unfold produceItem. destruct (producer (cache s)) as [f|]; simpl;
        [|by intros [= <-]].
      destruct (f key (world s)) as [[p|] w]; simpl; [|by intros [= <-]].
      destruct (putItem fuel key p _) as [s1| |] eqn:Hrun; simpl; [|done..].
      intros [= <-]. by rewrite (putItem_maxSize _ _ _ _ _ Hrun).
  - unfold Replace. destruct (items (cache s) !! key) as [q|].
    + destruct (evictElement q s) as [s1| |] eqn:He; simpl; [|done..].
      destruct (putItem fuel key p s1) as [s2| |] eqn:Hrun; simpl; [|done..].
      intros [= <-]. rewrite (putItem_maxSize _ _ _ _ _ Hrun).
      by eapply evictElement_maxSize.
    + simpl. destruct (putItem fuel key p s) as [s2| |] eqn:Hrun; simpl; [|done..].
      intros [= <-]. by eapply putItem_maxSize.
  - unfold Evict. destruct (items (cache s) !! key) as [q|]; simpl;
      [|by intros [= <-]].
    destruct (evictElement q s) as [s1| |] eqn:He; simpl; [|done..].
    intros [= <-]. by eapply evictElement_maxSize.
  - unfold EvictIf.
    destruct (evictIfLoop predicate order s) as [s1| |] eqn:Hrun; simpl; [|done..].
    intros [= <-]. by eapply evictIfLoop_maxSize.
  - unfold MakeRoom.
    destruct (evictAsNeeded fuel _) as [s2| |] eqn:Hrun; simpl; [|done..].
    intros [= <-]. simpl.
    destruct (evictAsNeeded_settled fuel _ _ Hrun) as [_ ->]. simpl.
    unfold GoInt.add, GoInt.sub. rewrite wrap_add_l.
    replace (maxSize (cache s) - size + size) with (maxSize (cache s)) by lia.
    by apply wrap_small.
Qed.

(** No sequence of calls changes the capacity: [MaxSize()] after a run is
    [MaxSize()] before it, whatever the calls store, sharing included. *)
Theorem MaxSize_constant fuel ops : ∀ s s',
  GoInt.in_range (maxSize (cache s)) →
  run fuel ops s = Done s' → MaxSize s' = MaxSize s.
Proof.
  unfold MaxSize.
  induction ops as [|o ops IH]; intros s s' Hr; simpl; [by intros [= <-]|].
  destruct (step fuel o s) as [s1| |] eqn:Hstep; simpl; [|done..].
  pose proof (step_maxSize fuel o s s1 Hr Hstep) as Hm.
  intros Hrun. rewrite <- Hm. apply IH; [by rewrite Hm|done].
Qed.

(** ** Insertion and lookup *)

(** An item that fits the capacity can be read back: after [Put] of an
    absent key, [Has] says the key is present and [Get] returns the very item,
    without calling the producer or the hook and without changing the index or
    [currentSize]. *)
Theorem Put_Get_roundtrip fuel key p s :
  inv s → items (cache s) !! key = None → unshared key p s →
  (length (orderedItems (cache s)) < fuel)%nat →
  0 <= Size (heap s p) <= maxSize (cache s) →
  currentSize (cache s) + Size (heap s p) <= GoInt.max_int →
  ∃ s1 s2, Put fuel key p s = Done (None, s1) ∧ Has key s1 = true ∧
    Get fuel key s1 = Done (Some p, s2) ∧ Has key s2 = true ∧
    items (cache s2) = items (cache s1) ∧
    currentSize (cache s2) = currentSize (cache s1) ∧
    world s2 = world s1.
Proof.
  intros Hinv Hk Hun Hlen Hsz Hfit.
  assert (∀ k, items (cache s) !! k ≠ Some p) as Hp.
  { intros k Hkp. rewrite (Hun k p Hkp eq_refl) in Hkp. congruence. }
  destruct (putItem_keeps fuel key p s Hinv Hk Hp Hlen Hsz Hfit)
    as (s1 & Hrun & Hinv1 & _ & Hkp).
  destruct (Get_promotes fuel key p s1 (inv_wf s1 Hinv1) Hkp)
    as (e & s2 & Hget & _ & _ & Hi & Hc & _ & _ & Hw & _).
  exists s1, s2. split; [unfold Put; by rewrite Hk, Hrun|].
  split; [unfold Has; rewrite Hkp; by apply bool_decide_eq_true|].
  split; [done|].
  split; [unfold Has; rewrite Hi, Hkp; by apply bool_decide_eq_true|].
  done.
Qed.

(** On a state that satisfies the invariants (the index and the recency
    list in one-to-one correspondence, [currentSize] the exact sum of sizes
    that are not negative), the producer is called once for a key: when [Get]
    of an absent key stores the item its producer makes, an item that no
    other key holds, of a size between 0 and the capacity, with [currentSize]
    plus that size no more than [max_int], the key is present afterwards and
    the next [Get] of the key returns the same item and leaves the
    environment, the producer included, alone. *)
Theorem Get_produces_once fuel key f p w s :
  inv s → items (cache s) !! key = None →
  producer (cache s) = Some f → f key (world s) = (Some p, w) →
  unshared key p s →
  (length (orderedItems (cache s)) < fuel)%nat →
  0 <= Size (heap s p) <= maxSize (cache s) →
  currentSize (cache s) + Size (heap s p) <= GoInt.max_int →
  ∃ s1 s2, Get fuel key s = Done (Some p, s1) ∧ Has key s1 = true ∧
    Get fuel key s1 = Done (Some p, s2) ∧
    world s2 = world s1 ∧ items (cache s2) = items (cache s1).
Proof.
  intros Hinv Hk Hf Hfk Hun Hlen Hsz Hfit.
  assert (∀ k, items (cache s) !! k ≠ Some p) as Hp.
  { intros k Hkp. rewrite (Hun k p Hkp eq_refl) in Hkp. congruence. }
  destruct (putItem_keeps fuel key p (set_world w s)) as (s1 & Hrun & Hinv1 & _ & Hkp);
    [by apply (inv_ext s)|done..|].
  destruct (Get_promotes fuel key p s1 (inv_wf s1 Hinv1) Hkp)
    as (e & s2 & Hget & _ & _ & Hi & _ & _ & _ & Hw & _).
  exists s1, s2. rewrite (Get_miss fuel key f p w s Hk Hf Hfk), Hrun. simpl.
  split; [done|].
  split; [unfold Has; rewrite Hkp; by apply bool_decide_eq_true|]. done.
Qed.

(** [Get] of an absent key returns nil and stores nothing when no producer
    is configured, and when the producer yields nil: the cache is as it was,
    and the environment is as the producer left it. *)
Theorem Get_miss_nothing fuel key s :
  items (cache s) !! key = None →
  (producer (cache s) = None → Get fuel key s = Done (None, s)) ∧
  (∀ f w, producer (cache s) = Some f → f key (world s) = (None, w) →
     ∃ s', Get fuel key s = Done (None, s') ∧
       cache s' = cache s ∧ heap s' = heap s ∧ world s' = w).
Proof.
  intros Hk. unfold Get, produceItem. rewrite Hk. split.
  - by intros ->.
  - intros f w -> ->. by eexists.
Qed.

(** ** No call panics *)

Lemma linked_ext s s' :
  heap s' = heap s →
  orderedItems (cache s') = orderedItems (cache s) →
  items (cache s') = items (cache s) →
  linked s → linked s'.
Proof. unfold linked. by intros -> -> ->. Qed.

Lemma linked_evicted key e p s : linked s → linked (evicted key e p s).
Proof.
  intros [Hi Hl]. split; simpl.
  - intros k q Hk. apply lookup_delete_Some in Hk as [_ Hk]. by apply (Hi k q).
  - rewrite Forall_forall in Hl |- *. intros x Hx.
    apply elem_of_Remove in Hx as [_ Hx]. by apply Hl.
Qed.

Lemma linked_evictElement p s :
  linked s →
  is_Some (elementKey (heap s p)) ∧ is_Some (elementListItem (heap s p)) →
  returns linked (evictElement p s).
Proof.
  intros Hl [[key Hk] [e He]]. rewrite (evictElement_linked s p key e Hk He).
  simpl. by apply linked_evicted.
Qed.

Lemma linked_evictAsNeeded fuel : ∀ s,
  linked s → returns linked (evictAsNeeded fuel s).
Proof.
  induction fuel as [|fuel IH]; intros s Hl; simpl; case_bool_decide as Hc;
    try done.
  destruct Hc as [_ Hpos]. unfold Back.
  destruct (last (orderedItems (cache s))) as [back|] eqn:Hb.
  2:{ apply last_None in Hb. rewrite Hb in Hpos. simpl in Hpos. lia. }
  simpl.
  assert (back ∈ orderedItems (cache s)) as Hin.
  { apply last_Some in Hb as [l' ->]. apply elem_of_app. right. left. }
  pose proof (proj2 Hl) as Hall. rewrite Forall_forall in Hall.
  pose proof (linked_evictElement back.2 s Hl (Hall back Hin)) as He.
  destruct (evictElement back.2 s) as [s1| |]; simpl in *; [|done..].
  by apply IH.
Qed.

Lemma linked_inserted key p s : linked s → linked (inserted key p s).
Proof.
  intros [Hi Hl].
  assert (∀ q, is_Some (elementKey (heap s q)) ∧ is_Some (elementListItem (heap s q)) →
    is_Some (elementKey (heap (inserted key p s) q))
    ∧ is_Some (elementListItem (heap (inserted key p s) q))) as Hmono.
  { intros q Hq. simpl. unfold store. destruct (decide (q = p)); [|done].
    simpl. split; by eexists. }
  assert (is_Some (elementKey (heap (inserted key p s) p))
          ∧ is_Some (elementListItem (heap (inserted key p s) p))) as Hnew.
  { simpl. unfold store. rewrite decide_True by done. simpl. split; by eexists. }
  split.
  - intros k q Hk. simpl in Hk.
    apply lookup_insert_Some in Hk as [[_ <-]|[_ Hk]]; [done|].
    apply Hmono. by apply (Hi k q).
  - simpl. apply Forall_cons. split; [done|].
    rewrite Forall_forall in Hl |- *. intros x Hx. apply Hmono. by apply Hl.
Qed.

Lemma linked_putItem fuel key p s :
  linked s → returns linked (putItem fuel key p s).
Proof.
  intros Hl. rewrite putItem_inserted.
  by apply linked_evictAsNeeded, linked_inserted.
Qed.

Lemma MoveToFront_subset e l x : x ∈ MoveToFront e l → x ∈ l.
Proof.
  unfold MoveToFront.
  destruct (list_find _ l) as [[i y]|] eqn:Hf; [|done].
  apply list_find_Some in Hf as (Hi & _).
  intros [->|Hx]%elem_of_cons.
  - by eapply list_elem_of_lookup_2.
  - by apply elem_of_Remove in Hx as [_ Hx].
Qed.

Lemma returns_after {A : Type} (P : @State K _ _ V W → Prop)
    (r : result (A * @State K _ _ V W)) :
  returns (fun x => P x.2) r → returns P (after r).
Proof. by destruct r. Qed.

Lemma linked_step fuel o s : linked s → returns linked (step fuel o s).
Proof.
  intros Hl. destruct o as [key p|key|key p|key|order predicate|size]; simpl.
  - apply returns_after. unfold Put.
    destruct (items (cache s) !! key); [done|].
    pose proof (linked_putItem fuel key p s Hl) as Hp.
    by destruct (putItem fuel key p s).
  - apply returns_after. unfold Get.
    destruct (items (cache s) !! key) as [q|] eqn:Hk.
    + destruct (proj1 Hl key q Hk) as [_ [e He]]. rewrite He. simpl.
      destruct Hl as [Hi Hall]. split; [done|]. simpl.
      rewrite Forall_forall in Hall |- *. intros x Hx.
      by apply Hall, (MoveToFront_subset e).
    + unfold produceItem. destruct (producer (cache s)) as [f|]; [|done].
      destruct (f key (world s)) as [[p|] w]; simpl; [|by apply (linked_ext s)].
      assert (linked (set_world w s)) as Hl' by (by apply (linked_ext s)).
      pose proof (linked_putItem fuel key p (set_world w s) Hl') as Hp.
      by destruct (putItem fuel key p _).
  - apply returns_after. unfold Replace.
    assert (returns linked (match items (cache s) !! key with
                            | Some item => evictElement item s
                            | None => Done s
                            end)) as H1.
    { destruct (items (cache s) !! key) as [q|] eqn:Hk; [|done].
      apply linked_evictElement; [done|]. by apply (proj1 Hl key q). }
    destruct (match items (cache s) !! key with
              | Some item => evictElement item s
              | None => Done s
              end) as [s1| |]; simpl in *; [|done..].
    pose proof (linked_putItem fuel key p s1 H1) as Hp.
    by destruct (putItem fuel key p s1).
  - apply returns_after. unfold Evict.
    destruct (items (cache s) !! key) as [q|] eqn:Hk; [|done].
    pose proof (linked_evictElement q s Hl (proj1 Hl key q Hk)) as He.
    by destruct (evictElement q s).
  - apply returns_after. unfold EvictIf.
    assert (returns linked (evictIfLoop predicate order s)) as Hloop.
    { revert s Hl. induction order as [|key order IH]; intros s Hl; simpl; [done|].
      assert (returns linked (evictIfStep predicate key s)) as Hs.
      { unfold evictIfStep. destruct (items (cache s) !! key) as [q|] eqn:Hk; [|done].
        destruct (predicate key); [|done].
        apply linked_evictElement; [done|]. by apply (proj1 Hl key q). }
      destruct (evictIfStep predicate key s) as [s1| |]; simpl in *; [|done..].
      by apply IH. }
    by destruct (evictIfLoop predicate order s).
  - unfold MakeRoom.
    pose proof (linked_evictAsNeeded fuel
      (set_cache (set_maxSize (GoInt.sub (maxSize (cache s)) size) (cache s)) s)) as He.
    destruct (evictAsNeeded fuel _) as [s1| |]; simpl in *; [|by apply He..].
    apply (linked_ext s1); try done. by apply He, (linked_ext s).
Qed.

Lemma linked_run fuel ops : ∀ s, linked s → returns linked (run fuel ops s).
Proof.
  induction ops as [|o ops IH]; intros s Hl; simpl; [done|].
  pose proof (linked_step fuel o s Hl) as Hs.
  destruct (step fuel o s) as [s1| |]; simpl in *; [|done..]. by apply IH.
Qed.

(** No sequence of calls on a cache that [New] has made panics, whatever the
    calls store, sharing included: the run returns, unless it is still in an
    eviction pass when the fuel is used up.  The two back-references the code
    dereferences are set in every item it can reach. *)
Theorem run_never_panics maxSize producer onevict c h w fuel ops :
  New maxSize producer onevict = inr c →
  (∃ s', run fuel ops (fresh c h w) = Done s') ∨
  run fuel ops (fresh c h w) = OutOfFuel.
Proof.
  intros Hnew.
  assert (linked (fresh c h w)) as Hl.
  { unfold New in Hnew. case_bool_decide; [done|]. injection Hnew as <-.
    split; simpl; [apply map_Forall_empty|constructor]. }
  pose proof (linked_run fuel ops _ Hl) as Hr.
  destruct (run fuel ops (fresh c h w)) as [s'| |]; [left; by exists s'|done|by right].
Qed.

(** ** The index and the recency list agree *)



(** ** The eviction pass evicts no more than it must *)

Lemma sizesOf_snoc h ev x : sizesOf h (ev ++ [x]) = sizesOf h ev + Size (h x.2).
Proof.
  unfold sizesOf. induction ev as [|y ev IH]; simpl; [lia|]. rewrite IH. lia.
Qed.

Lemma drained_minimal s s' :
  rtc evictBack s s' → inv s →
  ∃ ev, orderedItems (cache s) = orderedItems (cache s') ++ ev ∧
    currentSize (cache s') = currentSize (cache s) - sizesOf (heap s) ev ∧
    ∀ x ev', ev = x :: ev' →
      maxSize (cache s) < currentSize (cache s') + Size (heap s x.2).
Proof.
  intros Hd. induction Hd as [s|s s1 s' Hstep _ IH]; intros Hinv.
  { exists []. rewrite app_nil_r. split; [done|]. split; [simpl; lia|done]. }
  destruct (evictBack_inv_eq s s1 Hinv Hstep)
    as (Hinv1 & Hguard & Hh & Hm & e & q & Hl & Hc).
  destruct (IH Hinv1) as (ev & Hev & Hsum & Hmin).
  exists (ev ++ [(e, q)]). split; [by rewrite Hl, Hev, app_assoc|]. split.
  - rewrite sizesOf_snoc, Hsum, Hh, Hc. simpl. lia.
  - intros x ev' Heq. destruct ev as [|y ev0].
    + simpl in Heq. injection Heq as <- _. simpl in Hsum. simpl. lia.
    + simpl in Heq. injection Heq as <- _.
      rewrite <- Hm, <- Hh. by apply (Hmin y ev0).
Qed.

(** On a state that satisfies the invariants the eviction pass stops as
    soon as the capacity is respected: the entries it has evicted are a suffix
    of the recency list, [currentSize] has lost exactly their sizes, and with
    the evicted entry that was nearest to the front still in, the capacity
    would be exceeded. *)
Theorem evictAsNeeded_minimal fuel s :
  inv s → (length (orderedItems (cache s)) ≤ fuel)%nat →
  ∃ s' ev, evictAsNeeded fuel s = Done s' ∧
    orderedItems (cache s) = orderedItems (cache s') ++ ev ∧
    currentSize (cache s') = currentSize (cache s) - sizesOf (heap s) ev ∧
    (∀ x ev', ev = x :: ev' →
       maxSize (cache s) < currentSize (cache s') + Size (heap s x.2)) ∧
    (currentSize (cache s') <= maxSize (cache s) ∨ orderedItems (cache s') = []).
Proof.
  intros Hinv Hlen.
  destruct (evictAsNeeded_wf fuel s (inv_wf s Hinv) Hlen) as (s' & Hrun & Hd & Hs).
  destruct (drained_minimal s s' Hd Hinv) as (ev & Hev & Hsum & Hmin).
  destruct (drained_frame s s' (inv_wf s Hinv) Hd) as (_ & _ & Hm & _).
  exists s', ev. do 4 (split; [done|]).
  rewrite <- Hm. by apply settled_bounded.
Qed.

(** ** EvictIf of everything, and of nothing *)

Lemma evictIfLoop_none predicate order : ∀ s,
  (∀ k, k ∈ order → predicate k = false) →
  evictIfLoop predicate order s = Done s.
Proof.
  induction order as [|key order IH]; intros s Hp; simpl; [done|].
  unfold evictIfStep. rewrite (Hp key) by left.
  destruct (items (cache s) !! key); simpl; apply IH; intros k Hk; apply Hp; by right.
Qed.

Lemma evictIfLoop_inv predicate order : ∀ s s',
  inv s → evictIfLoop predicate order s = Done s' → inv s'.
Proof.
  induction order as [|key order IH]; intros s s' Hinv; simpl.
  { by intros [= <-]. }
  unfold evictIfStep.
  destruct (items (cache s) !! key) as [p|] eqn:Hk; [destruct (predicate key)|];
    simpl; try by apply IH.
  destruct (wf_held s key p (inv_wf s Hinv) Hk) as (Hpk & e & He & Hin).
  rewrite (evictElement_linked s p key e Hpk He). simpl.
  destruct (inv_evicted s key e p Hinv Hk He) as [Hinv1 _]. by apply IH.
Qed.

(** [EvictIf] with a predicate that no visited key satisfies changes
    nothing, whatever the state and the order.  On a state that satisfies the
    invariants, whose keys are visited in any order, [EvictIf] with a
    predicate that every key satisfies leaves the cache empty: no key is
    present, the recency list is empty and [currentSize] is 0. *)
Theorem EvictIf_none_or_all order predicate s :
  ((∀ k, k ∈ order → predicate k = false) →
     EvictIf order predicate s = Done (None, s)) ∧
  (inv s → order ≡ₚ (map_to_list (items (cache s))).*1 →
   (∀ k, predicate k = true) →
     ∃ s', EvictIf order predicate s = Done (None, s') ∧
       items (cache s') = ∅ ∧ orderedItems (cache s') = [] ∧
       currentSize (cache s') = 0 ∧ ∀ k, Has k s' = false).
Proof.
  split.
  - intros Hp. unfold EvictIf. by rewrite evictIfLoop_none.
  - intros Hinv Hperm Hp. pose proof (inv_wf s Hinv) as Hwf.
    assert (NoDup order) as Hnd.
    { rewrite Hperm. apply NoDup_fst_map_to_list. }
    destruct (evictIfLoop_spec predicate order s Hwf Hnd)
      as (s' & Hrun & Hwf' & _ & Hit & _).
    pose proof (evictIfLoop_inv predicate order s s' Hinv Hrun) as Hinv'.
    assert (items (cache s') = ∅) as Hi.
    { apply map_eq. intros k. rewrite Hit, lookup_empty.
      destruct (items (cache s) !! k) as [p|] eqn:Hk; [|by destruct (decide _)].
      rewrite decide_True; [done|]. split; [done|].
      rewrite Hperm. apply list_elem_of_fmap. exists (k, p).
      split; [done|]. by apply elem_of_map_to_list. }
    assert (orderedItems (cache s') = []) as Hl.
    { destruct (orderedItems (cache s')) as [|[e p] l] eqn:Hl; [done|exfalso].
      destruct (wf_listed s' e p Hwf') as (_ & k & _ & Hk); [rewrite Hl; left|].
      by rewrite Hi, lookup_empty in Hk. }
    exists s'. unfold EvictIf. rewrite Hrun. simpl. split; [done|].
    do 2 (split; [done|]). split; [by apply (inv_empty s' Hinv')|].
    intros k. unfold Has. rewrite Hi, lookup_empty.
    apply bool_decide_eq_false. by intros [? ?].
Qed.

(** ** Replace in place *)

Lemma evictAsNeeded_within fuel s :
  currentSize (cache s) <= maxSize (cache s) → evictAsNeeded fuel s = Done s.
Proof.
  intros Hfit. destruct fuel; simpl; case_bool_decide as Hc; try done;
    destruct Hc; lia.
Qed.

(** [Replace] of a present key by an item that fits in the room the old one
    leaves touches no other entry: the key maps to the new item, the other
    keys keep theirs, the hook is called once, for the old item, and the new
    item is in front of the recency list.  No fuel is needed. *)
Theorem Replace_in_place fuel key p q s :
  wf s → items (cache s) !! key = Some q →
  GoInt.add (GoInt.sub (currentSize (cache s)) (Size (heap s q))) (Size (heap s p))
    <= maxSize (cache s) →
  ∃ s', Replace fuel key p s = Done (None, s') ∧
    items (cache s') = <[key := p]> (items (cache s)) ∧
    orderedItems (cache s')
      = (nextElem s, p) :: filter (fun x => x.2 ≠ q) (orderedItems (cache s)) ∧
    currentSize (cache s')
      = GoInt.add (GoInt.sub (currentSize (cache s)) (Size (heap s q))) (Size (heap s p)) ∧
    world s' = match onevict (cache s) with
               | Some f => f key q (world s)
               | None => world s
               end.
Proof.
  intros Hwf Hk Hfit.
  destruct (Replace_present fuel key p q s Hwf Hk) as (e & Hin & He & Hev & ->).
  rewrite putItem_inserted, evictAsNeeded_within by exact Hfit. simpl.
  eexists. split; [done|]. simpl. split; [by rewrite insert_delete_eq|].
  split; [|done]. by rewrite (Remove_by_item s e q).
Qed.

(** ** MakeRoom, then Put *)

Lemma evictElement_heap p s s' :
  evictElement p s = Done s' → heap s' = heap s.
Proof.
  unfold evictElement.
  destruct (elementKey (heap s p)); [|done].
  destruct (elementListItem (heap s p)); [|done]. simpl.
  destruct (onevict (cache s)); intros [= <-]; reflexivity.
Qed.

Lemma evictAsNeeded_heap fuel : ∀ s s',
  evictAsNeeded fuel s = Done s' → heap s' = heap s.
Proof.
  induction fuel as [|fuel IH]; intros s s'; simpl; case_bool_decide as Hc;
    try done; try (intros [= <-]; done).
  destruct (Back (orderedItems (cache s))) as [back|]; [|done]. simpl.
  destruct (evictElement back.2 s) as [s1| |] eqn:He; [|done..]. simpl.
  intros Hrec. rewrite (IH _ _ Hrec). by eapply evictElement_heap.
Qed.

(** What [MakeRoom] is for: on a state that satisfies the invariants, after
    [MakeRoom] of an amount, a [Put] of an absent key with an item no larger
    than the amount evicts nothing, whatever its fuel: the index gains the key
    and loses none, and the hook is not called. *)
Theorem MakeRoom_then_Put fuel fuel' amount key p s :
  inv s → capacity_ok s → 0 <= amount <= maxSize (cache s) →
  (length (orderedItems (cache s)) ≤ fuel)%nat →
  items (cache s) !! key = None →
  0 <= Size (heap s p) <= amount →
  ∃ s1 s2, MakeRoom fuel amount s = Done s1 ∧
    Put fuel' key p s1 = Done (None, s2) ∧
    items (cache s2) = <[key := p]> (items (cache s1)) ∧
    world s2 = world s1 ∧
    currentSize (cache s2) = currentSize (cache s1) + Size (heap s p) ∧
    currentSize (cache s2) <= maxSize (cache s2).
Proof.
  intros Hinv Hcap Hamount Hlen Hk Hsz.
  destruct (MakeRoom_inv fuel amount s Hinv Hcap Hamount Hlen)
    as (s1 & ev & Hr & Hfree & Hm & Hl & Hi & Hw & _ & Hinv1).
  pose proof (inv_cur_nonneg s1 Hinv1) as Hc0.
  pose proof (inv_cur s1 Hinv1) as Hc1.
  unfold MaxSize in Hm.
  assert (heap s1 = heap s) as Hh.
  { unfold MakeRoom in Hr.
    destruct (evictAsNeeded fuel _) as [s0| |] eqn:Hrun; [|done..].
    simpl in Hr. injection Hr as <-. simpl.
    by rewrite (evictAsNeeded_heap _ _ _ Hrun). }
  assert (EmptySpace s1 = maxSize (cache s1) - currentSize (cache s1)) as Hes.
  { unfold EmptySpace, GoInt.sub. apply wrap_small.
    unfold capacity_ok, GoInt.in_range, GoInt.min_int, GoInt.max_int in *. lia. }
  assert (GoInt.add (currentSize (cache s1)) (Size (heap s1 p))
          = currentSize (cache s1) + Size (heap s p)) as Hadd.
  { rewrite Hh. apply wrap_small.
    unfold capacity_ok, GoInt.in_range, GoInt.min_int, GoInt.max_int in *. lia. }
  assert (items (cache s1) !! key = None) as Hk1.
  { destruct (items (cache s1) !! key) as [x|] eqn:Hx; [|done].
    apply Hi in Hx as [Hx _]. congruence. }
  exists s1, (inserted key p s1). split; [done|].
  unfold Put. rewrite Hk1, putItem_inserted, evictAsNeeded_within.
  - simpl. do 3 (split; [done|]). split; [exact Hadd|]. rewrite Hadd. lia.
  - simpl. rewrite Hadd. lia.
Qed.

(** ** Put *)

(** Whenever the eviction pass returns, it has run its iterations one after
    the other, each with the capacity exceeded, up to a state in which the
    loop condition is false. *)
Lemma evictAsNeeded_steps fuel : ∀ s s',
  evictAsNeeded fuel s = Done s' → rtc evictStep s s' ∧ settled s'.
Proof.
  induction fuel as [|fuel IH]; intros s s'; simpl; case_bool_decide as Hc;
    try done; try (intros [= <-]; done).
  destruct (Back (orderedItems (cache s))) as [back|] eqn:Hb; [|done]. simpl.
  destruct (evictElement back.2 s) as [s1| |] eqn:He; [|done..]. simpl.
  intros Hrec. destruct (IH _ _ Hrec) as [Hd Hs]. split; [|done].
  eapply rtc_l; [|exact Hd]. split; [by destruct Hc|]. by exists back.
Qed.

(** C5.  [Put] returns the duplicate-key error exactly when the key is
    present, and then the state it returns is the state it was called in.
    When the key is absent, whatever [Put] returns is a nil error and a state
    that the iterations of the eviction pass lead to from the insertion (the
    item in front of the recency list, the key indexed, [currentSize]
    increased), and in which the capacity is respected or the recency list
    empty.  On a well-formed state, given an object that no key holds and fuel
    for the pass, [Put] does return: the recency list is the new entry in
    front of the old ones, less a suffix; the index is the old one with the
    key added, less the evicted items; the hook has been called for these,
    from the back. *)
Theorem Put_spec fuel key p s :
  ((∃ s', Put fuel key p s = Done (Some errKeyExists, s'))
     ↔ is_Some (items (cache s) !! key)) ∧
  (∀ err s', Put fuel key p s = Done (Some err, s') →
     err = errKeyExists ∧ s' = s) ∧
  (items (cache s) !! key = None →
     (∀ err s', Put fuel key p s = Done (err, s') →
        err = None ∧ rtc evictStep (inserted key p s) s' ∧ settled s') ∧
     (wf s → unshared key p s → (length (orderedItems (cache s)) < fuel)%nat →
      ∃ s' ev, Put fuel key p s = Done (None, s') ∧
        (nextElem s, p) :: orderedItems (cache s) = orderedItems (cache s') ++ ev ∧
        (∀ k q, items (cache s') !! k = Some q ↔
                <[key := p]> (items (cache s)) !! k = Some q ∧ q ∉ ev.*2) ∧
        world s' = notified (inserted key p s) ev ∧
        settled s')).
Proof.
  unfold Put. destruct (items (cache s) !! key) as [q|] eqn:Hk.
  - split; [split; [by eexists|by eexists]|]. split; [|done].
    by intros err s' [= <- <-].
  - split.
    { split; [|by intros [? ?]].
      intros [s' Hp]. destruct (putItem fuel key p s); done. }
    split.
    { intros err s' Hp. destruct (putItem fuel key p s); done. }
    intros _. split.
    + intros err s'. rewrite putItem_inserted.
      destruct (evictAsNeeded fuel (inserted key p s)) as [s1| |] eqn:Hrun;
        simpl; [|done..].
      intros [= <- <-]. split; [done|]. by apply (evictAsNeeded_steps fuel).
    + intros Hwf Hun Hlen.
      assert (∀ k, items (cache s) !! k ≠ Some p) as Hp.
      { intros k Hkp. rewrite (Hun k p Hkp eq_refl) in Hkp. congruence. }
      destruct (putItem_wf fuel key p s Hwf Hk Hp Hlen) as (s' & -> & Hd & Hs & _).
      destruct (drained_spec _ s' (wf_inserted s key p Hwf Hk Hp) Hd)
        as (ev & Hev & Hw & Hit).
      exists s', ev. simpl. by do 4 (split; [done|]).
Qed.

End Facts.

(** * The claims on the scenarios of the specification and of the tests *)

Import Tests.

(** ** C1: size accounting *)



(** ** C2: recency order *)




(** ** C3: the capacity bound *)

(** C3 on the cache that holds test1 and test2, for a Put of test3: the call
    returns, and in a state within the bound. *)
Lemma capacity_bound_witness :
  ∃ s', step 10 (OpPut "test3" 3%nat) two_items = Done s' ∧ bounded s'.
Proof.
  destruct (capacity_bound 10 (OpPut "test3" 3%nat) two_items) as [Hb Hret].
  - apply (bool_decide_unpack _). vm_compute. reflexivity.
  - vm_compute. split; [reflexivity|discriminate].
  - left. vm_compute. discriminate.
  - exact I.
  - destruct Hret as [s' Hs'].
    + apply (bool_decide_unpack _). vm_compute. reflexivity.
    + vm_compute. lia.
    + exists s'. split; [exact Hs'|exact (Hb s' Hs')].
Defined.

(** ** C4: an item larger than the capacity *)

(** C4 as stated fails: the cache holds test1, of size 50, when an item of
    size 200 is stored under capacity 128.  The item is evicted, and test1
    before it: [currentSize] was 50 and is 0. *)
Lemma oversized_item_fails :
  oversized = Done (50, 0, false, false, [("test1", 1%nat); ("big", 9%nat)]).
Proof. vm_compute. reflexivity. Qed.

(** C4, amended, on the cache that holds test1. *)
Lemma oversized_item_witness :
  ∃ s', Put 10 "big" 9%nat one_item = Done (None, s') ∧
    Has "big" s' = false ∧ items (cache s') = ∅ ∧ orderedItems (cache s') = [] ∧
    currentSize (cache s') = 0 ∧
    world s' = record "big" 9%nat (notified one_item (orderedItems (cache one_item))).
Proof.
  apply (proj1 (oversized_item 10 "big" 9%nat one_item
    ltac:(apply (bool_decide_unpack _); vm_compute; reflexivity)
    ltac:(vm_compute; split; [reflexivity|discriminate])
    ltac:(vm_compute; reflexivity)
    ltac:(apply (bool_decide_unpack _); vm_compute; reflexivity)
    ltac:(vm_compute; reflexivity)
    ltac:(vm_compute; discriminate)
    ltac:(vm_compute; lia))).
Defined.

(** ** C5: Put *)

(** C5 on the cache that holds test1 and test2: Put of test1 fails, Put of
    test3 succeeds, with a suffix of the recency list evicted and the
    capacity respected. *)
Lemma Put_spec_witness :
  (∃ s', Put 10 "test1" 3%nat two_items = Done (Some errKeyExists, s')) ∧
  (∃ s' ev, Put 10 "test3" 3%nat two_items = Done (None, s') ∧
     (nextElem two_items, 3%nat) :: orderedItems (cache two_items)
       = orderedItems (cache s') ++ ev ∧
     settled s').
Proof.
  split.
  - apply (proj1 (Put_spec 10 "test1" 3%nat two_items)). vm_compute. by eexists.
  - destruct (Put_spec 10 "test3" 3%nat two_items) as (_ & _ & Hins).
    destruct Hins as [_ Hret]; [vm_compute; reflexivity|].
    destruct Hret as (s' & ev & Hput & Hev & _ & _ & Hs).
    + apply (bool_decide_unpack _). vm_compute. reflexivity.
    + apply (bool_decide_unpack _). vm_compute. reflexivity.
    + vm_compute. lia.
    + by exists s', ev.
Defined.

(** [TestPut_ItemExists]: the second Put fails and the first value stays. *)
Example Put_twice : put_twice = Done (Some errKeyExists, Some "test1").
Proof. vm_compute. reflexivity. Qed.

(** ** C6: Replace *)

(** C6 as stated fails when an object is stored under two keys.  After
    [Put(a, i1); Put(b, i2); Replace(b, i1)], which calls the hook for b and
    i2, [Replace(a, i3)] finds i1 under a and evicts the entry i1 refers back
    to, which is that of b: the hook is called with b, and b is no longer
    present. *)
Lemma Replace_spec_fails :
  replace_shared = Done (true, false, false, [("b", 2%nat); ("b", 1%nat)]).
Proof. vm_compute. reflexivity. Qed.

(** C6, amended, on the cache that holds test1 and test2: Replace of test1
    returns and test1 maps to the new object. *)
Lemma Replace_spec_witness :
  ∃ s', Replace 10 "test1" 3%nat two_items = Done (None, s') ∧
    items (cache s') !! "test1" = Some 3%nat.
Proof.
  destruct (Replace_spec 10 "test1" 3%nat two_items) as (_ & _ & Hup).
  - apply (bool_decide_unpack _). vm_compute. reflexivity.
  - destruct Hup as (s' & Hr & _ & Hkeep).
    + apply (bool_decide_unpack _). vm_compute. reflexivity.
    + vm_compute. lia.
    + exists s'. split; [exact Hr|]. apply Hkeep.
      * apply (bool_decide_unpack _). vm_compute. reflexivity.
      * vm_compute. split; discriminate.
      * vm_compute. discriminate.
Defined.

(** [TestReplace_ItemExists]: the key maps to the new value. *)
Example Replace_existing : replace_existing = Done (Some "test2").
Proof. vm_compute. reflexivity. Qed.

(** ** C7: MakeRoom *)

(** C7 as stated fails.  With no object shared: sizes [max_int] and 1
    stored under capacity [max_int] make [currentSize] wrap to [min_int], and
    [MakeRoom(10)] then evicts nothing and leaves an empty space of -1.  With
    one object stored under a and b, of size 50 under capacity 160,
    [MakeRoom(100)] evicts the entry of b, stored after a; a stays. *)
Lemma MakeRoom_net_effect_fails :
  make_room_overflow = Done (-1)
  ∧ make_room_shared = Done (true, false, false, [("b", 1%nat)]).
Proof. split; vm_compute; reflexivity. Qed.

(** C7, amended.  On a state that satisfies the invariants of the data model
    (the index and the recency list in one-to-one correspondence,
    [currentSize] the exact sum of sizes that are not negative) and whose
    capacity is one [New] accepts, [MakeRoom] of an amount
    between 0 and the capacity returns with at least that much empty space
    and the capacity it started with; it has evicted a suffix of the recency
    list, the hook called from the back, and nothing when there was room
    already.  With capacity 160 and test1, test2 of size 50 stored,
    [MakeRoom(100)] evicts test1 only and leaves 110 of empty space. *)
Theorem MakeRoom_net_effect :
  (∀ (K : Type) `(Countable K) (V W : Type) (s : @State K _ _ V W) fuel amount,
     inv s → capacity_ok s → 0 <= amount <= maxSize (cache s) →
     (length (orderedItems (cache s)) ≤ fuel)%nat →
     ∃ s' ev, MakeRoom fuel amount s = Done s' ∧
       amount <= EmptySpace s' ∧ MaxSize s' = MaxSize s ∧
       orderedItems (cache s) = orderedItems (cache s') ++ ev ∧
       (∀ k q, items (cache s') !! k = Some q ↔
               items (cache s) !! k = Some q ∧ q ∉ ev.*2) ∧
       world s' = notified s ev ∧
       (currentSize (cache s) <= maxSize (cache s) - amount → ev = []))
  ∧ make_room = Done ([("test1", 1%nat)], 110, 160, false, true).
Proof.
  split; [|vm_compute; reflexivity].
  intros K ? ? V W s fuel amount Hinv Hcap Hamount Hlen.
  destruct (MakeRoom_inv fuel amount s Hinv Hcap Hamount Hlen)
    as (s' & ev & Hr & Hfree & Hm & Hl & Hi & Hw & Hno & _).
  by exists s', ev.
Qed.

(** C7, amended, on the cache of capacity 128 that holds test1 and test2,
    for an amount of 100. *)
Lemma MakeRoom_net_effect_witness :
  ∃ s' ev, MakeRoom 10 100 two_items = Done s' ∧
    100 <= EmptySpace s' ∧ MaxSize s' = MaxSize two_items ∧
    orderedItems (cache two_items) = orderedItems (cache s') ++ ev ∧
    (∀ k q, items (cache s') !! k = Some q ↔
            items (cache two_items) !! k = Some q ∧ q ∉ ev.*2) ∧
    world s' = notified two_items ev ∧
    (currentSize (cache two_items) <= maxSize (cache two_items) - 100 → ev = []).
Proof.
  apply (proj1 MakeRoom_net_effect string _ _ string Log two_items 10%nat 100).
  - apply (bool_decide_unpack _). vm_compute. reflexivity.
  - vm_compute. split; [reflexivity|discriminate].
  - vm_compute. split; discriminate.
  - vm_compute. lia.
Defined.

(** ** C8: EvictIf *)

(** C8 as stated fails when an object is stored under two keys.  After
    [Put(a, x); Put(b, x); Put(c, y)], [EvictIf] with the predicate that holds
    of a alone removes b and keeps a, and calls the hook with b, in whatever
    order the keys are visited. *)
Lemma EvictIf_exact_fails :
  evictif_shared ["a"; "b"; "c"] = Done (true, false, true, [("b", 1%nat)])
  ∧ evictif_shared ["a"; "c"; "b"] = Done (true, false, true, [("b", 1%nat)])
  ∧ evictif_shared ["b"; "a"; "c"] = Done (true, false, true, [("b", 1%nat)])
  ∧ evictif_shared ["b"; "c"; "a"] = Done (true, false, true, [("b", 1%nat)])
  ∧ evictif_shared ["c"; "a"; "b"] = Done (true, false, true, [("b", 1%nat)])
  ∧ evictif_shared ["c"; "b"; "a"] = Done (true, false, true, [("b", 1%nat)]).
Proof. repeat split; vm_compute; reflexivity. Qed.

(** C8, amended, on the cache that holds test1 and test2, for the predicate
    of [TestEvictIf]. *)
Lemma EvictIf_exact_witness :
  ∃ s', EvictIf ["test1"; "test2"] (fun k => bool_decide (k = "test2")) two_items
        = Done (None, s') ∧
    ∀ k, is_Some (items (cache s') !! k)
         ↔ is_Some (items (cache two_items) !! k) ∧ bool_decide (k = "test2") = false.
Proof.
  destruct (EvictIf_exact ["test1"; "test2"] (fun k => bool_decide (k = "test2")) two_items)
    as (s' & Hr & _ & Hdom & _).
  - apply (bool_decide_unpack _). vm_compute. reflexivity.
  - vm_compute. reflexivity.
  - exists s'. split; [exact Hr|exact Hdom].
Defined.

(** [TestEvictIf], with the keys visited in an order of the run time's
    choice: test2 goes, and the hook is called for it alone. *)
Example EvictIf_test2 :
  evict_test2 = Done (true, false, true, [("test2", 2%nat)]).
Proof. vm_compute. reflexivity. Qed.

(** ** C9: construction *)

(** C9 at [New(128, nil, nil)]. *)
Lemma New_spec_witness :
  GoInt.in_range 128 ∧
  ∀ c, New (K:=string) (W:=Log) 128 None None = inr c →
    0 < 128 ∧ items c = ∅ ∧ orderedItems c = [] ∧
    ∀ (h : loc → @LRUItem string string) w,
      (∀ key, Has key (fresh c h w) = false) ∧
      MaxSize (fresh c h w) = 128 ∧ EmptySpace (fresh c h w) = 128.
Proof.
  assert (GoInt.in_range 128) as Hr by (vm_compute; split; discriminate).
  split; [exact Hr|]. exact (proj2 (proj2 (New_spec 128 None None Hr))).
Defined.

(** [TestEmptyCache]. *)
Example New_128 :
  (s ← start 128 heap50; Done (EmptySpace s)) = Done 128.
Proof. reflexivity. Qed.

(** ** C10: sizes are not validated *)

(** C10 for an item of size -10 in a cache of capacity 128. *)
Lemma Put_negative_size_witness :
  ∃ s', Put 1 "test" 1%nat
          (fresh (mkCache 128 0 [] ∅ None (Some record)) (fun _ => item "test" (-10)) [])
        = Done (None, s') ∧
    currentSize (cache s') = -10 ∧ MaxSize s' < EmptySpace s'.
Proof.
  apply (Put_negative_size 128 None (Some record) _ (fun _ => item "test" (-10))).
  - reflexivity.
  - vm_compute. split; discriminate.
  - vm_compute. split; [discriminate|reflexivity].
  - vm_compute. discriminate.
Defined.

(** ** The fuel of the eviction pass *)

(** An object of size 0 is stored under two keys, then an object larger than
    the capacity is stored.  The first iteration of the pass finds the shared
    object at the back and removes the entry of its second key; every later
    iteration finds it at the back again, in an element it no longer refers
    to, and changes nothing: the capacity stays exceeded, and no amount of fuel
    is enough. *)
Example shared_item_loops :
  ∀ fuel, Put fuel "c" 2%nat stored_twice = OutOfFuel.
Proof.
  intros fuel. unfold Put.
  assert (items (cache stored_twice) !! "c" = None) as -> by (vm_compute; reflexivity).
  rewrite putItem_inserted. simpl.
  destruct fuel as [|fuel]; [vm_compute; reflexivity|].
  rewrite (evictAsNeeded_step fuel _ (0%nat, 1%nat) after_first_eviction);
    [|vm_compute; reflexivity..].
  rewrite (evictAsNeeded_stuck after_first_eviction (0%nat, 1%nat));
    [reflexivity|vm_compute; reflexivity..].
Qed.

(** * Further properties, on the states of the tests *)

(** [Evict_spec] on the cache that holds test1 and test2. *)
Lemma Evict_spec_witness :
  ∃ s', Evict "test1" two_items = Done (Some 1%nat, s') ∧
    items (cache s') = delete "test1" (items (cache two_items)) ∧
    Has "test1" s' = false.
Proof.
  destruct (proj1 (Evict_spec "test1" two_items
    ltac:(apply (bool_decide_unpack _); vm_compute; reflexivity)) 1%nat)
    as (s' & He & Hi & _ & _ & _ & _ & Hh & _).
  - vm_compute. reflexivity.
  - by exists s'.
Defined.

(** [Put_Evict_roundtrip] on the cache that holds test1. *)
Lemma Put_Evict_roundtrip_witness :
  ∃ s1 s2, Put 0 "test2" 2%nat one_item = Done (None, s1) ∧
    items (cache s1) = <["test2" := 2%nat]> (items (cache one_item)) ∧
    Evict "test2" s1 = Done (Some 2%nat, s2) ∧
    items (cache s2) = items (cache one_item) ∧
    orderedItems (cache s2) = orderedItems (cache one_item) ∧
    currentSize (cache s2) = currentSize (cache one_item) ∧
    maxSize (cache s2) = maxSize (cache one_item).
Proof.
  apply (Put_Evict_roundtrip 0 "test2" 2%nat one_item).
  - apply (bool_decide_unpack _). vm_compute. reflexivity.
  - vm_compute. split; discriminate.
  - vm_compute. reflexivity.
  - vm_compute. discriminate.
Defined.

(** [EmptySpace_bounds] on the cache that holds test1 and test2. *)
Lemma EmptySpace_bounds_witness :
  EmptySpace two_items + currentSize (cache two_items) = MaxSize two_items ∧
  0 <= EmptySpace two_items <= MaxSize two_items.
Proof.
  apply (EmptySpace_bounds two_items).
  - apply (bool_decide_unpack _). vm_compute. reflexivity.
  - vm_compute. split; [reflexivity|discriminate].
  - left. vm_compute. discriminate.
Defined.

(** [MaxSize_constant] on a run with a MakeRoom in it. *)
Lemma MaxSize_constant_witness :
  MaxSize (reached (run 10 mixed_run two_items)) = MaxSize two_items.
Proof.
  apply (MaxSize_constant 10 mixed_run two_items).
  - vm_compute. split; discriminate.
  - vm_compute. reflexivity.
Defined.

(** [Put_Get_roundtrip] on the cache that holds test1. *)
Lemma Put_Get_roundtrip_witness :
  ∃ s1 s2, Put 10 "test2" 2%nat one_item = Done (None, s1) ∧ Has "test2" s1 = true ∧
    Get 10 "test2" s1 = Done (Some 2%nat, s2) ∧ Has "test2" s2 = true ∧
    items (cache s2) = items (cache s1) ∧
    currentSize (cache s2) = currentSize (cache s1) ∧
    world s2 = world s1.
Proof.
  apply (Put_Get_roundtrip 10 "test2" 2%nat one_item).
  - apply (bool_decide_unpack _). vm_compute. reflexivity.
  - vm_compute. reflexivity.
  - apply (bool_decide_unpack _). vm_compute. reflexivity.
  - vm_compute. lia.
  - vm_compute. split; discriminate.
  - vm_compute. discriminate.
Defined.

(** [Get_produces_once] on [TestBasicTest_Producer]'s first two calls. *)
Lemma Get_produces_once_witness :
  ∃ s1 s2, Get 10 "test" producing = Done (Some 0%nat, s1) ∧ Has "test" s1 = true ∧
    Get 10 "test" s1 = Done (Some 0%nat, s2) ∧
    world s2 = world s1 ∧ items (cache s2) = items (cache s1).
Proof.
  apply (Get_produces_once 10 "test" produce50 0%nat 1%nat producing).
  - apply (bool_decide_unpack _). vm_compute. reflexivity.
  - vm_compute. reflexivity.
  - reflexivity.
  - reflexivity.
  - apply (bool_decide_unpack _). vm_compute. reflexivity.
  - vm_compute. lia.
  - vm_compute. split; discriminate.
  - vm_compute. discriminate.
Defined.

(** [Get_miss_nothing] on the cache that holds test1 and test2, which has no
    producer: [TestBasicTest_NoProducer]. *)
Lemma Get_miss_nothing_witness :
  Get 10 "test" two_items = Done (None, two_items).
Proof.
  apply (proj1 (Get_miss_nothing 10 "test" two_items
    ltac:(vm_compute; reflexivity))).
  vm_compute. reflexivity.
Defined.

(** [run_never_panics] on the run that stores one object under two keys and
    evicts the first key twice. *)
Lemma run_never_panics_witness :
  (∃ s', run 10 [OpPut "a" 1%nat; OpPut "b" 1%nat; OpEvict "a"; OpEvict "a"]
           (fresh (mkCache 128 0 [] ∅ None (Some record)) heap50 []) = Done s') ∨
  run 10 [OpPut "a" 1%nat; OpPut "b" 1%nat; OpEvict "a"; OpEvict "a"]
    (fresh (mkCache 128 0 [] ∅ None (Some record)) heap50 []) = OutOfFuel.
Proof.
  apply (run_never_panics 128 None (Some record)). reflexivity.
Defined.


(** [evictAsNeeded_minimal] on the state in which test3 has just been added
    to test1 and test2: one entry goes. *)
Lemma evictAsNeeded_minimal_witness :
  ∃ s' ev, evictAsNeeded 10 over_capacity = Done s' ∧
    orderedItems (cache over_capacity) = orderedItems (cache s') ++ ev ∧
    currentSize (cache s')
      = currentSize (cache over_capacity) - sizesOf (heap over_capacity) ev ∧
    (∀ x ev', ev = x :: ev' →
       maxSize (cache over_capacity) < currentSize (cache s') + Size (heap over_capacity x.2)) ∧
    (currentSize (cache s') <= maxSize (cache over_capacity)
     ∨ orderedItems (cache s') = []).
Proof.
  apply (evictAsNeeded_minimal 10 over_capacity).
  - apply (bool_decide_unpack _). vm_compute. reflexivity.
  - vm_compute. lia.
Defined.

(** [EvictIf_none_or_all] on the cache that holds test1 and test2, for the
    predicates of [TestEvictIf_NoElements] and [TestEvictIf_AllElements]. *)
Lemma EvictIf_none_or_all_witness :
  EvictIf ["test1"; "test2"] (fun _ => false) two_items = Done (None, two_items) ∧
  ∃ s', EvictIf ["test1"; "test2"] (fun _ => true) two_items = Done (None, s') ∧
    items (cache s') = ∅ ∧ orderedItems (cache s') = [] ∧
    currentSize (cache s') = 0 ∧ ∀ k, Has k s' = false.
Proof.
  split.
  - apply (proj1 (EvictIf_none_or_all ["test1"; "test2"] (fun _ => false) two_items)).
    reflexivity.
  - apply (proj2 (EvictIf_none_or_all ["test1"; "test2"] (fun _ => true) two_items)).
    + apply (bool_decide_unpack _). vm_compute. reflexivity.
    + vm_compute. reflexivity.
    + reflexivity.
Defined.

(** [Replace_in_place] on the cache that holds test1 and test2. *)
Lemma Replace_in_place_witness :
  ∃ s', Replace 0 "test1" 3%nat two_items = Done (None, s') ∧
    items (cache s') = <["test1" := 3%nat]> (items (cache two_items)) ∧
    orderedItems (cache s')
      = (nextElem two_items, 3%nat)
        :: filter (fun x => x.2 ≠ 1%nat) (orderedItems (cache two_items)) ∧
    currentSize (cache s')
      = GoInt.add (GoInt.sub (currentSize (cache two_items)) (Size (heap two_items 1%nat)))
          (Size (heap two_items 3%nat)) ∧
    world s' = record "test1" 1%nat (world two_items).
Proof.
  apply (Replace_in_place 0 "test1" 3%nat 1%nat two_items).
  - apply (bool_decide_unpack _). vm_compute. reflexivity.
  - vm_compute. reflexivity.
  - vm_compute. discriminate.
Defined.

(** [MakeRoom_then_Put] on the cache that holds test1 and test2:
    [TestMakeRoom]'s last two calls. *)
Lemma MakeRoom_then_Put_witness :
  ∃ s1 s2, MakeRoom 10 100 two_items = Done s1 ∧
    Put 0 "test3" 3%nat s1 = Done (None, s2) ∧
    items (cache s2) = <["test3" := 3%nat]> (items (cache s1)) ∧
    world s2 = world s1 ∧
    currentSize (cache s2) = currentSize (cache s1) + Size (heap two_items 3%nat) ∧
    currentSize (cache s2) <= maxSize (cache s2).
Proof.
  apply (MakeRoom_then_Put 10 0 100 "test3" 3%nat two_items).
  - apply (bool_decide_unpack _). vm_compute. reflexivity.
  - vm_compute. split; [reflexivity|discriminate].
  - vm_compute. split; discriminate.
  - vm_compute. lia.
  - vm_compute. reflexivity.
  - vm_compute. split; discriminate.
Defined.
